(** * svd_parser: register description to packed bitfield declarations

    A shallow embedding of [svd_parser.py].  The program walks an
    ElementTree document, and for every register of every peripheral
    prints a packed struct typedef plus two address macros.

    Modelling conventions.
    - Python [int] is [Z]; arithmetic never wraps.  The interpreter's
      optional cap on the length of decimal literals is not modelled.
    - Python [str] is [string]; one [ascii] stands for one character and
      document text is taken to be ASCII.  An element's [.text] may be
      [None], hence [pytext := option string].
    - An exception is a value of [exn]; a computation that may raise
      returns [result].  Only [ValueError] is ever caught by the source.
    - A [dict] is an association list in insertion order.
    - [print] appends one entry to the list of lines written so far.
    - Of ElementPath the tag paths and the predicate path of line 19 are
      modelled.  What it makes of a [derivedFrom] value that leaves the
      literal of that predicate is a parameter of the run, [QuotedLookup],
      and every statement about a run holds for each such parameter. *)

From Stdlib Require Import ZArith List Bool Lia.
From Stdlib Require Import Strings.String Strings.Ascii.
From Stdlib Require Numbers.DecimalString Numbers.HexadecimalString.
From Stdlib Require Numbers.DecimalPos Numbers.HexadecimalPos.
From Stdlib Require Import Sorting.Sorted Sorting.Permutation.
Import ListNotations.

Open Scope string_scope.
Open Scope Z_scope.

(** ** Exceptions *)

Inductive exn : Type :=
| AttributeError   (* [None.text], [None.findall] *)
| TypeError        (* [int(None)], [len(None)] *)
| ValueError       (* [int] on text that is not a literal of the base *)
| SyntaxError      (* a path expression ElementPath cannot read *)
| OtherException.  (* any other exception *)

Inductive result (A : Type) : Type :=
| Ok (a : A)
| Raise (e : exn).
Arguments Ok {A} a.
Arguments Raise {A} e.

Definition bind {A B : Type} (m : result A) (k : A -> result B) : result B :=
  match m with
  | Ok a => k a
  | Raise e => Raise e
  end.

Notation "x <- m ;; k" := (bind m (fun x => k))
  (at level 61, m at next level, right associativity).

(** [try: m except ValueError: h] *)
Definition try_except_ValueError {A : Type} (m h : result A) : result A :=
  match m with
  | Raise ValueError => h
  | other => other
  end.

Fixpoint mapM {A B : Type} (f : A -> result B) (l : list A) : result (list B) :=
  match l with
  | [] => Ok []
  | x :: xs => y <- f x ;; ys <- mapM f xs ;; Ok (y :: ys)
  end.

(** ** Python text primitives *)

Definition pytext : Type := option string.

(** What an f-string writes for a [str]-or-[None] value. *)
Definition fmt (t : pytext) : string :=
  match t with
  | Some s => s
  | None => "None"
  end.

(** [str(n)] for an [int]. *)
Definition str_of_int (n : Z) : string :=
  DecimalString.NilZero.string_of_int (Z.to_int n).

(** [hex(n)]: lower-case digits after [0x], the sign in front. *)
Definition hex (n : Z) : string :=
  let digits := HexadecimalString.NilZero.string_of_uint (N.to_hex_uint (Z.abs_N n)) in
  if n <? 0 then "-0x" ++ digits else "0x" ++ digits.

(** [c * n] for a one-character string [c]; empty when [n <= 0]. *)
Fixpoint repeat_char (c : ascii) (n : nat) : string :=
  match n with
  | O => EmptyString
  | S k => String c (repeat_char c k)
  end.

Definition str_mul (c : ascii) (n : Z) : string := repeat_char c (Z.to_nat n).

Definition len (s : string) : Z := Z.of_nat (String.length s).

(** ['\n'.join(lines)] *)
Fixpoint join (sep : string) (lines : list string) : string :=
  match lines with
  | [] => ""
  | [l] => l
  | l :: rest => l ++ sep ++ join sep rest
  end.

Definition newline : string := String (ascii_of_nat 10) EmptyString.

(** ** [int(text)], [int(text, 16)], [int(text, 0)]

    The scanner of CPython's [PyLong_FromString]: blanks, an optional sign,
    the base prefix where the base admits one (with one underscore allowed
    after it), digits of the base separated by single underscores, blanks. *)

Definition is_space (c : ascii) : bool :=
  let n := N_of_ascii c in
  ((9 <=? n) && (n <=? 13) || (n =? 32))%N.

(** [_PyLong_DigitValue]: 0-9, then a-z and A-Z as 10..35; 37 otherwise. *)
Definition digit_value (c : ascii) : Z :=
  let n := Z.of_N (N_of_ascii c) in
  if (48 <=? n) && (n <=? 57) then n - 48
  else if (97 <=? n) && (n <=? 122) then n - 97 + 10
  else if (65 <=? n) && (n <=? 90) then n - 65 + 10
  else 37.

Fixpoint skip_spaces (s : string) : string :=
  match s with
  | String c rest => if is_space c then skip_spaces rest else s
  | EmptyString => s
  end.

(** The digit loop: [acc] is the value read so far, [prev_us] tells whether
    the previous character was an underscore, [digits] counts digits.
    Returns the value, the digit count and the unread rest; [None] on a
    doubled or trailing underscore. *)
Fixpoint scan_digits (base : Z) (s : string) (acc : Z) (prev_us : bool) (digits : nat)
  : option (Z * nat * string) :=
  match s with
  | String c rest =>
      if Ascii.eqb c "_" then
        if prev_us then None else scan_digits base rest acc true digits
      else if digit_value c <? base then
        scan_digits base rest (acc * base + digit_value c) false (S digits)
      else if prev_us then None else Some (acc, digits, s)
  | EmptyString => if prev_us then None else Some (acc, digits, s)
  end.

Definition is_prefix_letter (base : Z) (c : ascii) : bool :=
  ((base =? 16) && (Ascii.eqb c "x" || Ascii.eqb c "X"))
  || ((base =? 8) && (Ascii.eqb c "o" || Ascii.eqb c "O"))
  || ((base =? 2) && (Ascii.eqb c "b" || Ascii.eqb c "B")).

(** Base chosen by a literal when the caller passes base 0, and whether a
    non-zero value is then refused (a leading zero without a prefix). *)
Definition detect_base (s : string) : Z * bool :=
  match s with
  | String "0" (String c _) =>
      if Ascii.eqb c "x" || Ascii.eqb c "X" then (16, false)
      else if Ascii.eqb c "o" || Ascii.eqb c "O" then (8, false)
      else if Ascii.eqb c "b" || Ascii.eqb c "B" then (2, false)
      else (10, true)
  | String "0" EmptyString => (10, true)
  | _ => (10, false)
  end.

Definition skip_prefix (base : Z) (s : string) : string :=
  match s with
  | String "0" (String c rest) =>
      if is_prefix_letter base c then
        match rest with
        | String "_" rest' => rest'
        | _ => rest
        end
      else s
  | _ => s
  end.

Definition int_of_str (base : Z) (s : string) : result Z :=
  let s1 := skip_spaces s in
  let '(sign, s2) :=
    match s1 with
    | String "+" r => (1, r)
    | String "-" r => (-1, r)
    | _ => (1, s1)
    end in
  let '(base', error_if_nonzero) :=
    if base =? 0 then detect_base s2 else (base, false) in
  let s3 := skip_prefix base' s2 in
  match s3 with
  | String "_" _ => Raise ValueError
  | _ =>
      match scan_digits base' s3 0 false O with
      | None => Raise ValueError
      | Some (_, O, _) => Raise ValueError
      | Some (v, _, rest) =>
          if error_if_nonzero && negb (v =? 0) then Raise ValueError
          else
            match skip_spaces rest with
            | EmptyString => Ok (sign * v)
            | _ => Raise ValueError
            end
      end
  end.

(** [int(t)] and [int(t, base)] on an element text: [None] is a [TypeError]. *)
Definition py_int (base : Z) (t : pytext) : result Z :=
  match t with
  | None => Raise TypeError
  | Some s => int_of_str base s
  end.

(** ** The document tree ([xml.etree.ElementTree.Element]) *)

#[warnings="-register-all"]
Inductive Element : Type :=
| mkElement (tag : string) (attrib : list (string * string))
            (text : pytext) (tail : pytext) (children : list Element).

Definition tag (e : Element) : string :=
  match e with mkElement t _ _ _ _ => t end.
Definition attrib (e : Element) : list (string * string) :=
  match e with mkElement _ a _ _ _ => a end.
Definition text (e : Element) : pytext :=
  match e with mkElement _ _ x _ _ => x end.
Definition tail (e : Element) : pytext :=
  match e with mkElement _ _ _ x _ => x end.
Definition children (e : Element) : list Element :=
  match e with mkElement _ _ _ _ c => c end.

(** [e.find(t)] for a plain tag [t]: the first child with that tag. *)
Definition find (t : string) (e : Element) : option Element :=
  List.find (fun c => String.eqb (tag c) t) (children e).

(** [e.findall(t)] for a plain tag: every child with that tag. *)
Definition findall_children (t : string) (e : Element) : list Element :=
  List.filter (fun c => String.eqb (tag c) t) (children e).

(** [e.find(t).text]; a missing child makes [.text] an [AttributeError]. *)
Definition find_text (t : string) (e : Element) : result pytext :=
  match find t e with
  | Some c => Ok (text c)
  | None => Raise AttributeError
  end.

(** [e.get(key)] *)
Fixpoint assoc_get (key : string) (l : list (string * string)) : option string :=
  match l with
  | [] => None
  | (k, v) :: rest => if String.eqb k key then Some v else assoc_get key rest
  end.

Definition get (key : string) (e : Element) : option string :=
  assoc_get key (attrib e).

(** [e.iter()]: the element and its descendants in document order. *)
Fixpoint iter (e : Element) : list Element :=
  match e with
  | mkElement _ _ _ _ cs =>
      e :: (fix iter_all (l : list Element) : list Element :=
              match l with
              | [] => []
              | c :: rest => (iter c ++ iter_all rest)%list
              end) cs
  end.

Fixpoint iter_all (l : list Element) : list Element :=
  match l with
  | [] => []
  | c :: rest => (iter c ++ iter_all rest)%list
  end.

(** [e.findall(".//t")]: the proper descendants tagged [t], document order. *)
Definition findall (t : string) (e : Element) : list Element :=
  List.filter (fun d => String.eqb (tag d) t) (iter_all (children e)).

(** ["".join(e.itertext())]: the text of [e], then for each child its own
    inner text followed by its tail. *)
Definition text_or_empty (t : pytext) : string :=
  match t with
  | Some s => s
  | None => ""
  end.

Fixpoint itertext (e : Element) : string :=
  match e with
  | mkElement _ _ x _ cs =>
      text_or_empty x ++
      (fix inner (l : list Element) : string :=
         match l with
         | [] => ""
         | c :: rest => itertext c ++ text_or_empty (tail c) ++ inner rest
         end) cs
  end.

Definition has_quote (s : string) : bool :=
  existsb (fun c => Ascii.eqb c "'") (list_ascii_of_string s).

(** The predicate [[name='value']]: the element has a child [name] whose
    whole inner text is [value]. *)
Definition has_name (value : string) (p : Element) : bool :=
  existsb (fun n => String.eqb (itertext n) value) (findall_children "name" p).

(** The text after the first apostrophe of [s]. *)
Fixpoint after_quote (s : string) : string :=
  match s with
  | EmptyString => EmptyString
  | String c rest => if Ascii.eqb c "'" then rest else after_quote rest
  end.

(** A letter or a digit. *)
Definition is_alnum (c : ascii) : bool := digit_value c <? 36.

(** In the path of line 19 the value sits between apostrophes.  A value
    that itself holds an apostrophe ends that literal early, and what
    follows it is read as path syntax by the rules of ElementPath, which
    are no part of this program.  [QuotedLookup] is what [root.find]
    returns for such a value and a document; it is a parameter of every
    run below. *)
Definition QuotedLookup : Type := string -> Element -> result (option Element).

(** [root.find(f".//peripheral[name='{value}']")].

    Without an apostrophe in [value]: the first descendant tagged
    [peripheral], in document order, that has a child [name] whose whole
    inner text is [value]; [None] when there is none.

    With an apostrophe followed by letters and digits only (or by
    nothing): the predicate reads as [name], [=], a literal and one more
    name, which is no predicate ElementPath knows, and [find] raises
    [SyntaxError].

    With anything else after the apostrophe: whatever the completed path
    means to ElementPath, [quoted value root]. *)
Definition find_peripheral_named (quoted : QuotedLookup) (value : string)
    (root : Element) : result (option Element) :=
  if has_quote value then
    if forallb is_alnum (list_ascii_of_string (after_quote value))
    then Raise SyntaxError
    else quoted value root
  else Ok (List.find (has_name value) (findall "peripheral" root)).

(** The values for which the lookup is left to [quoted]. *)
Definition reaches_lookup (value : string) : bool :=
  has_quote value
  && negb (forallb is_alnum (list_ascii_of_string (after_quote value))).

(** ** [get_register_type] (lines 34-43) *)

Definition get_register_type (size : Z) : string :=
  if size =? 8 then "uint8_t"
  else if size =? 16 then "uint16_t"
  else if size =? 32 then "uint32_t"
  else if size =? 64 then "uint64_t"
  else "uint" ++ str_of_int size ++ "_t".

(** ** [field_dict]: field name to (start bit, end bit)

    Keys are element texts, so a key may be [None].  Assigning to a key
    already present replaces its value where it stands; a new key goes to
    the end. *)

Definition bit_range : Type := (Z * Z)%type.
Definition item : Type := (pytext * bit_range)%type.
Definition dict : Type := list item.

Definition pytext_eqb (a b : pytext) : bool :=
  match a, b with
  | Some x, Some y => String.eqb x y
  | None, None => true
  | _, _ => false
  end.

Fixpoint dict_set (key : pytext) (value : bit_range) (d : dict) : dict :=
  match d with
  | [] => [(key, value)]
  | (k, v) :: rest =>
      if pytext_eqb k key then (k, value) :: rest
      else (k, v) :: dict_set key value rest
  end.

Fixpoint dict_get (key : pytext) (d : dict) : option bit_range :=
  match d with
  | [] => None
  | (k, v) :: rest => if pytext_eqb k key then Some v else dict_get key rest
  end.

(** One turn of the loop of lines 121-127 (and 80-86), up to the
    assignment: the key and the value it stores. *)
Definition field_entry (field : Element) : result item :=
  field_name <- find_text "name" field ;;
  field_bit_offset <- find_text "bitOffset" field ;;
  field_bit_width <- find_text "bitWidth" field ;;
  field_start_bit <- py_int 10 field_bit_offset ;;
  field_bit_width_int <- py_int 10 field_bit_width ;;
  let field_end_bit := field_start_bit + field_bit_width_int - 1 in
  Ok (field_name, (field_start_bit, field_end_bit)).

Fixpoint build_field_dict (fields : list Element) (field_dict : dict) : result dict :=
  match fields with
  | [] => Ok field_dict
  | field :: rest =>
      entry <- field_entry field ;;
      build_field_dict rest (dict_set (fst entry) (snd entry) field_dict)
  end.

(** [sorted(xs, key=key)]: ascending and stable, so any stable sort gives
    the list insertion sort gives. *)
Fixpoint insert_sorted {A : Type} (key : A -> Z) (x : A) (l : list A) : list A :=
  match l with
  | [] => [x]
  | y :: rest =>
      if key x <=? key y then x :: l else y :: insert_sorted key x rest
  end.

Definition sorted {A : Type} (key : A -> Z) (l : list A) : list A :=
  fold_right (insert_sorted key) [] l.

(** The order [sorted] leaves its result in. *)
Definition key_le {A : Type} (key : A -> Z) (x y : A) : Prop := key x <= key y.

(** [lambda x: x[1][0]] *)
Definition start_bit (x : item) : Z := fst (snd x).
Definition end_bit (x : item) : Z := snd (snd x).

(** ** The struct body (lines 131-140 and 90-99)

    The two branches differ in how the field name is written: the scalar
    branch pads it to five columns, and for that takes [len] of it. *)

Definition name_column_array (field_name : pytext) : result string :=
  Ok (fmt field_name).

Definition name_column_scalar (field_name : pytext) : result string :=
  match field_name with
  | None => Raise TypeError
  | Some s => Ok (s ++ str_mul " " (5 - len s))
  end.

Definition reserved_line (register_type : string) (width : Z) : string :=
  "    " ++ register_type ++ " : " ++ str_of_int width ++ ";".

Definition named_line (register_type column : string) (width : Z) : string :=
  "    " ++ register_type ++ " " ++ column ++ ": " ++ str_of_int width ++ ";".

(** The [for] loop: the lines it appends and the final [last_end_bit]. *)
Fixpoint field_loop (name_column : pytext -> result string) (register_type : string)
    (items : list item) (last_end_bit : Z) : result (list string * Z) :=
  match items with
  | [] => Ok ([], last_end_bit)
  | (field_name, (field_start_bit, field_end_bit)) :: rest =>
      let gap :=
        if negb (last_end_bit + 1 =? field_start_bit)
        then [reserved_line register_type (field_start_bit - last_end_bit - 1)]
        else [] in
      column <- name_column field_name ;;
      let line := named_line register_type column (field_end_bit - field_start_bit + 1) in
      more <- field_loop name_column register_type rest field_end_bit ;;
      Ok ((gap ++ line :: fst more)%list, snd more)
  end.

Definition struct_body (name_column : pytext -> result string) (register_type : string)
    (total_bits : Z) (items : list item) : result (list string) :=
  looped <- field_loop name_column register_type items (-1) ;;
  let last_end_bit := snd looped in
  let closing_gap :=
    if last_end_bit <? total_bits - 1
    then [reserved_line register_type (total_bits - last_end_bit - 1)]
    else [] in
  Ok (fst looped ++ closing_gap)%list.

Definition typedef_open : string := "typedef struct __attribute__((__packed__)) {".

Definition typedef_close (peripheral_name : string) (register_name : pytext) : string :=
  "} " ++ peripheral_name ++ "_" ++ fmt register_name ++ "bits_t;".

(** Lines 103-104: the array macros, without a dereference. *)
Definition array_raw_macro (peripheral_name : string) (register_name : pytext)
    (register_type address : string) : string :=
  "#define " ++ peripheral_name ++ "_" ++ fmt register_name
    ++ " ((volatile " ++ register_type ++ " *)" ++ address ++ ")".

Definition array_bits_macro (peripheral_name : string) (register_name : pytext)
    (address : string) : string :=
  "#define " ++ peripheral_name ++ "_" ++ fmt register_name
    ++ "bits ((volatile " ++ peripheral_name ++ "_" ++ fmt register_name
    ++ "bits_t *)" ++ address ++ ")".

(** Lines 143-144: the scalar macros, dereferenced. *)
Definition scalar_raw_macro (peripheral_name : string) (register_name : pytext)
    (register_type address : string) : string :=
  "#define " ++ peripheral_name ++ "_" ++ fmt register_name
    ++ " (*(volatile " ++ register_type ++ " *)" ++ address ++ ")".

Definition scalar_bits_macro (peripheral_name : string) (register_name : pytext)
    (address : string) : string :=
  "#define " ++ peripheral_name ++ "_" ++ fmt register_name
    ++ "bits (*(volatile " ++ peripheral_name ++ "_" ++ fmt register_name
    ++ "bits_t *)" ++ address ++ ")".

(** ** [extract_typedef] (lines 45-146) *)

(** Line 70: the array branch reads the size in base 10 only. *)
Definition read_size_array (register : Element) : result Z :=
  t <- find_text "size" register ;; py_int 10 t.

(** Lines 108-111: the scalar branch reads the size in base 10 and, on a
    [ValueError], again in base 16. *)
Definition read_size_scalar (register : Element) : result Z :=
  try_except_ValueError
    (t <- find_text "size" register ;; py_int 10 t)
    (t <- find_text "size" register ;; py_int 16 t).

(** [int(register.find('addressOffset').text, 16)] *)
Definition read_address_offset (register : Element) : result Z :=
  t <- find_text "addressOffset" register ;; py_int 16 t.

(** The text returned: the typedef around the struct body, then the two
    macros, joined by newlines. *)
Definition array_block (peripheral_name : string) (register_name : pytext)
    (register_type : string) (body : list string) (address : string) : string :=
  join newline
    ([typedef_open] ++ body ++
     [typedef_close peripheral_name register_name;
      array_raw_macro peripheral_name register_name register_type address;
      array_bits_macro peripheral_name register_name address])%list.

Definition scalar_block (peripheral_name : string) (register_name : pytext)
    (register_type : string) (body : list string) (address : string) : string :=
  join newline
    ([typedef_open] ++ body ++
     [typedef_close peripheral_name register_name;
      scalar_raw_macro peripheral_name register_name register_type address;
      scalar_bits_macro peripheral_name register_name address])%list.

(** Lines 66-104, entered when the register has a [dim] child. *)
Definition extract_typedef_array (register dim_element : Element)
    (peripheral_name : string) (peripheral_base_address : pytext)
    (register_name : pytext) : result string :=
  dim <- py_int 10 (text dim_element) ;;
  dim_increment <- (t <- find_text "dimIncrement" register ;; py_int 0 t) ;;
  dim_index <- find_text "dimIndex" register ;;
  register_size <- read_size_array register ;;
  let register_type := get_register_type register_size in
  register_address_offset <- read_address_offset register ;;
  base <- py_int 16 peripheral_base_address ;;
  let register_address := base + register_address_offset in
  field_dict <- build_field_dict (findall "field" register) [] ;;
  let field_dict := sorted start_bit field_dict in
  body <- struct_body name_column_array register_type register_size field_dict ;;
  Ok (array_block peripheral_name register_name register_type body
        (hex register_address)).

(** Lines 108-144, the register without a [dim] child. *)
Definition extract_typedef_scalar (register : Element)
    (peripheral_name : string) (peripheral_base_address : pytext)
    (register_name : pytext) : result string :=
  register_size <- read_size_scalar register ;;
  let register_type := get_register_type register_size in
  base <- py_int 16 peripheral_base_address ;;
  offset <- read_address_offset register ;;
  let register_address := hex (base + offset) in
  field_dict <- build_field_dict (findall "field" register) [] ;;
  let field_dict := sorted start_bit field_dict in
  body <- struct_body name_column_scalar register_type register_size field_dict ;;
  Ok (scalar_block peripheral_name register_name register_type body
        register_address).

Definition extract_typedef (register : Element) (peripheral_name : string)
    (peripheral_base_address : pytext) : result string :=
  register_name <- find_text "name" register ;;
  match find "dim" register with
  | Some dim_element =>
      extract_typedef_array register dim_element
        peripheral_name peripheral_base_address register_name
  | None =>
      extract_typedef_scalar register
        peripheral_name peripheral_base_address register_name
  end.

(** ** [list_registers] (lines 7-32)

    Standard output is the list of the strings handed to [print], oldest
    first.  A run returns what was written and, when an exception ended
    it, that exception; what was printed before stays printed. *)

Definition stdout : Type := list string.
Definition io (A : Type) : Type := stdout -> stdout * result A.

Definition io_ret {A : Type} (a : A) : io A := fun out => (out, Ok a).

Definition io_bind {A B : Type} (m : io A) (k : A -> io B) : io B :=
  fun out =>
    match m out with
    | (out', Ok a) => k a out'
    | (out', Raise e) => (out', Raise e)
    end.

Definition print (line : string) : io unit := fun out => ((out ++ [line])%list, Ok tt).

Definition lift {A : Type} (r : result A) : io A := fun out => (out, r).

Notation "x <~ m ;; k" := (io_bind m (fun x => k))
  (at level 61, m at next level, right associativity).
Notation "m ;;; k" := (io_bind m (fun _ => k))
  (at level 61, right associativity).

(** [for x in xs: body(x)] *)
Fixpoint for_each {A : Type} (xs : list A) (body : A -> io unit) : io unit :=
  match xs with
  | [] => io_ret tt
  | x :: rest => body x ;;; for_each rest body
  end.

(** [len(peripheral_name)], a [TypeError] on [None]. *)
Definition py_len (t : pytext) : result Z :=
  match t with
  | Some s => Ok (len s)
  | None => Raise TypeError
  end.

(** Lines 16-20: which element supplies the registers.  [None] stands
    for the Python [None] the lookup returns when nothing matches. *)
Definition resolve_derived (quoted : QuotedLookup) (root peripheral : Element)
    (peripheral_name : pytext) : io (option Element) :=
  match get "derivedFrom" peripheral with
  | Some (String c s as derived_from) =>
      print ("// " ++ fmt peripheral_name ++ " is derived from " ++ derived_from) ;;;
      lift (find_peripheral_named quoted derived_from root)
  | _ => io_ret (Some peripheral)
  end.

(** Lines 24-27: the block is computed whole, then printed, then an
    empty line. *)
Definition print_register (peripheral_name : string)
    (peripheral_base_address : pytext) (register : Element) : io unit :=
  block <~ lift (extract_typedef register peripheral_name peripheral_base_address) ;;
  print block ;;;
  print "".

(** Lines 23-28; [peripheral.findall] on [None] is an [AttributeError]. *)
Definition print_registers (source : option Element) (peripheral_name : string)
    (peripheral_base_address : pytext) : io unit :=
  match source with
  | None => lift (Raise AttributeError)
  | Some peripheral =>
      for_each (findall "register" peripheral)
               (print_register peripheral_name peripheral_base_address)
  end.

(** The body of the outer loop, lines 10-31. *)
Definition list_peripheral (quoted : QuotedLookup) (root peripheral : Element)
  : io unit :=
  peripheral_name <~ lift (find_text "name" peripheral) ;;
  peripheral_base_address <~ lift (find_text "baseAddress" peripheral) ;;
  print ("// " ++ fmt peripheral_name) ;;;
  n <~ lift (py_len peripheral_name) ;;
  print ("// " ++ str_mul "=" n) ;;;
  source <~ resolve_derived quoted root peripheral peripheral_name ;;
  print_registers source (fmt peripheral_name) peripheral_base_address ;;;
  print "".

Definition list_registers (quoted : QuotedLookup) (root : Element) : io unit :=
  for_each (findall "peripheral" root) (list_peripheral quoted root).

(** ** Layout members

    A line of the struct body is either a named bit field or an unnamed
    run of reserved bits.  [layout_loop] is [field_loop] with the member
    in place of the line written for it, and [layout_members] is
    [struct_body] likewise; [member_line] writes the line back. *)

Inductive LayoutMember : Type :=
| Named (field_name : pytext) (width : Z)
| Reserved (width : Z).

Definition member_width (m : LayoutMember) : Z :=
  match m with
  | Named _ w => w
  | Reserved w => w
  end.

Definition is_reserved (m : LayoutMember) : bool :=
  match m with
  | Reserved _ => true
  | Named _ _ => false
  end.

Fixpoint layout_loop (items : list item) (last_end_bit : Z)
  : list LayoutMember * Z :=
  match items with
  | [] => ([], last_end_bit)
  | (field_name, (field_start_bit, field_end_bit)) :: rest =>
      let gap :=
        if negb (last_end_bit + 1 =? field_start_bit)
        then [Reserved (field_start_bit - last_end_bit - 1)]
        else [] in
      let member := Named field_name (field_end_bit - field_start_bit + 1) in
      let more := layout_loop rest field_end_bit in
      ((gap ++ member :: fst more)%list, snd more)
  end.

Definition layout_members (total_bits : Z) (items : list item) : list LayoutMember :=
  let looped := layout_loop items (-1) in
  let last_end_bit := snd looped in
  let closing_gap :=
    if last_end_bit <? total_bits - 1
    then [Reserved (total_bits - last_end_bit - 1)]
    else [] in
  (fst looped ++ closing_gap)%list.

Definition member_line (name_column : pytext -> result string)
    (register_type : string) (m : LayoutMember) : result string :=
  match m with
  | Reserved w => Ok (reserved_line register_type w)
  | Named n w => column <- name_column n ;; Ok (named_line register_type column w)
  end.

(** The dictionary the loop of lines 121-127 ends with, from the entries
    the fields were read as. *)
Definition dict_of_entries (entries : list item) : dict :=
  fold_left (fun d e => dict_set (fst e) (snd e) d) entries [].

(** The whole engine on the entries read: collect, sort, lay out. *)
Definition field_layout (total_bits : Z) (entries : list item) : list LayoutMember :=
  layout_members total_bits (sorted start_bit (dict_of_entries entries)).

(** Members with the bit each one starts at, the first at [from]. *)
Fixpoint place (from : Z) (ms : list LayoutMember) : list (Z * LayoutMember) :=
  match ms with
  | [] => []
  | m :: rest => (from, m) :: place (from + member_width m) rest
  end.

Definition total_width (ms : list LayoutMember) : Z :=
  fold_right (fun m acc => member_width m + acc) 0 ms.

(** The placed members whose bit run [start, start + width) holds [bit]. *)
Definition covering (bit : Z) (placed : list (Z * LayoutMember)) : list (Z * LayoutMember) :=
  filter (fun p => (fst p <=? bit) && (bit <? fst p + member_width (snd p))) placed.

(** ** Sample documents *)

Definition leaf (t : string) (x : string) : Element :=
  mkElement t [] (Some x) None [].

Definition node (t : string) (cs : list Element) : Element :=
  mkElement t [] None None cs.

Definition field_elt (name : string) (bit_offset bit_width : string) : Element :=
  node "field" [leaf "name" name; leaf "bitOffset" bit_offset; leaf "bitWidth" bit_width].

(** The NVIC interrupt priority register of the Cortex-M0+ description,
    as quoted at the end of the source file. *)
Definition nvic_ip : Element :=
  node "register"
    [leaf "name" "IP"; leaf "description" "Interrupt Priority Register";
     leaf "addressOffset" "0x300"; leaf "size" "8"; leaf "access" "read-write";
     leaf "dim" "32"; leaf "dimIncrement" "0x1"; leaf "dimIndex" "0-31";
     node "fields"
       [field_elt "RESERVED" "0" "6"; field_elt "PRI" "6" "2"]].

Definition nvic_ip_no_fields : Element :=
  node "register"
    [leaf "name" "IP"; leaf "description" "Interrupt Priority Register";
     leaf "addressOffset" "0x300"; leaf "size" "8"; leaf "access" "read-write";
     leaf "dim" "32"; leaf "dimIncrement" "0x1"; leaf "dimIndex" "0-31"].

(** The register of two fields both named [A], as a document element. *)
Definition twice_named_register : Element :=
  node "register"
    [leaf "name" "R"; leaf "addressOffset" "0x0"; leaf "size" "8";
     node "fields" [field_elt "A" "0" "4"; field_elt "A" "4" "4"]].

(** A 16-bit register at offset 0x10, without fields and without [dim]. *)
Definition tim_ctrl : Element :=
  node "register"
    [leaf "name" "CTRL"; leaf "addressOffset" "0x10"; leaf "size" "16"].

(** [nvic_ip] with its three [dim] elements taken out. *)
Definition nvic_ip_scalar : Element :=
  node "register"
    [leaf "name" "IP"; leaf "description" "Interrupt Priority Register";
     leaf "addressOffset" "0x300"; leaf "size" "8"; leaf "access" "read-write";
     node "fields"
       [field_elt "RESERVED" "0" "6"; field_elt "PRI" "6" "2"]].

(** A 32-bit register that declares no field. *)
Definition plain_register : Element :=
  node "register"
    [leaf "name" "DATA"; leaf "addressOffset" "0x4"; leaf "size" "32"].

(** A 16-bit register whose field [B] starts inside field [A] and ends
    beyond the declared size. *)
Definition overlapping_register : Element :=
  node "register"
    [leaf "name" "CR"; leaf "addressOffset" "0x8"; leaf "size" "16";
     node "fields" [field_elt "A" "0" "8"; field_elt "B" "4" "16"]].

Definition overlapping_document : Element :=
  node "device"
    [node "peripherals"
       [node "peripheral"
          [leaf "name" "TIM"; leaf "baseAddress" "0x40000000";
           node "registers" [overlapping_register]]]].

(** A register with three fields, two of them named [A]. *)
Definition repeated_register : Element :=
  node "register"
    [leaf "name" "R"; leaf "addressOffset" "0x0"; leaf "size" "8";
     node "fields"
       [field_elt "A" "0" "4"; field_elt "B" "6" "2"; field_elt "A" "4" "1"]].

(** [nvic_ip] with other values in its three [dim] elements. *)
Definition nvic_ip_other_dim : Element :=
  node "register"
    [leaf "name" "IP"; leaf "description" "Interrupt Priority Register";
     leaf "addressOffset" "0x300"; leaf "size" "8"; leaf "access" "read-write";
     leaf "dim" "4"; leaf "dimIncrement" "4"; leaf "dimIndex" "A,B,C,D";
     node "fields"
       [field_elt "RESERVED" "0" "6"; field_elt "PRI" "6" "2"]].

(** A register whose size is written in hexadecimal, as an array and as a
    scalar. *)
Definition hex_size_array_register : Element :=
  node "register"
    [leaf "name" "BUF"; leaf "addressOffset" "0x20"; leaf "size" "0x20";
     leaf "dim" "4"; leaf "dimIncrement" "0x4"; leaf "dimIndex" "0-3"].

Definition hex_size_scalar_register : Element :=
  node "register"
    [leaf "name" "BUF"; leaf "addressOffset" "0x20"; leaf "size" "0x20"].

(** Two identical serial ports: the second is declared as derived from
    the first and has no registers of its own. *)
Definition uart_status : Element :=
  node "register"
    [leaf "name" "SR"; leaf "addressOffset" "0x4"; leaf "size" "8";
     node "fields" [field_elt "TXE" "0" "1"; field_elt "RXNE" "5" "1"]].

Definition uart0 : Element :=
  node "peripheral"
    [leaf "name" "UART0"; leaf "baseAddress" "0x40001000";
     node "registers" [uart_status]].

Definition uart1 : Element :=
  mkElement "peripheral" [("derivedFrom", "UART0")] None None
    [leaf "name" "UART1"; leaf "baseAddress" "0x40002000"].

Definition uart_document : Element :=
  node "device" [node "peripherals" [uart0; uart1]].

(** A third serial port derived from the second, which is itself
    derived from the first and declares a register of its own. *)
Definition uart1_with_register : Element :=
  mkElement "peripheral" [("derivedFrom", "UART0")] None None
    [leaf "name" "UART1"; leaf "baseAddress" "0x40002000";
     node "registers" [plain_register]].

Definition uart2 : Element :=
  mkElement "peripheral" [("derivedFrom", "UART1")] None None
    [leaf "name" "UART2"; leaf "baseAddress" "0x40003000"].

Definition chain_document : Element :=
  node "device" [node "peripherals" [uart0; uart1_with_register; uart2]].

(** A peripheral whose name holds an apostrophe, and one derived from it. *)
Definition oneil : Element :=
  node "peripheral"
    [leaf "name" "O'Neil"; leaf "baseAddress" "0x40005000";
     node "registers" [plain_register]].

Definition oneil_clone : Element :=
  mkElement "peripheral" [("derivedFrom", "O'Neil")] None None
    [leaf "name" "CLONE"; leaf "baseAddress" "0x40006000"].

Definition quoted_document : Element :=
  node "device" [node "peripherals" [oneil; oneil_clone]].

(** A peripheral whose [derivedFrom] attribute is empty. *)
Definition watchdog : Element :=
  mkElement "peripheral" [("derivedFrom", "")] None None
    [leaf "name" "WDT"; leaf "baseAddress" "0x40007000";
     node "registers" [tim_ctrl]].

(** No [derivedFrom] value of the sample documents reaches the
    [QuotedLookup] of a run, so their runs are the same under each one;
    this one is used to evaluate them. *)
Definition unreached_lookup : QuotedLookup := fun _ _ => Ok None.

(** ** What a register declares

    One [field] element declares a name, a bit offset and a bit width;
    [field_entry] stores it under its name as (start bit, end bit). *)

Record FieldDescriptor : Type := mkField {
  name : pytext;
  bitOffset : Z;
  bitWidth : Z
}.

Definition entry_of (f : FieldDescriptor) : item :=
  (name f, (bitOffset f, bitOffset f + bitWidth f - 1)).

(** A field of at least one bit lying inside [0, size). *)
Definition field_in_register (size : Z) (f : FieldDescriptor) : Prop :=
  0 <= bitOffset f /\ 0 < bitWidth f /\ bitOffset f + bitWidth f <= size.

(** [bitOffset, bitOffset + bitWidth) of one ends before the other's starts. *)
Definition fields_disjoint (f g : FieldDescriptor) : Prop :=
  bitOffset f + bitWidth f <= bitOffset g \/ bitOffset g + bitWidth g <= bitOffset f.

Definition well_formed_register (size : Z) (fields : list FieldDescriptor) : Prop :=
  Forall (field_in_register size) fields /\ ForallOrdPairs fields_disjoint fields.

Definition field_covers (bit : Z) (f : FieldDescriptor) : Prop :=
  bitOffset f <= bit < bitOffset f + bitWidth f.

(** Every bit of [0, size) belongs to some field. *)
Definition fields_cover_register (size : Z) (fields : list FieldDescriptor) : Prop :=
  forall bit, 0 <= bit < size -> exists f, In f fields /\ field_covers bit f.

Definition named_member (x : item) : LayoutMember :=
  Named (fst x) (end_bit x - start_bit x + 1).

Definition is_named (m : LayoutMember) : bool := negb (is_reserved m).

(** ** Registers alike but for their [dim] values

    [blank_dim] forgets the text of every element tagged [dim],
    [dimIncrement] or [dimIndex]; two registers with the same image differ
    at most in those texts. *)

Definition is_dim_tag (t : string) : bool :=
  String.eqb t "dim" || String.eqb t "dimIncrement" || String.eqb t "dimIndex".

Fixpoint blank_dim (e : Element) : Element :=
  match e with
  | mkElement t a x tl cs =>
      mkElement t a (if is_dim_tag t then None else x) tl (map blank_dim cs)
  end.

(** Lines 66-67 run through: [dim] and [dimIncrement] hold integers. *)
Definition dims_numeric (register : Element) : Prop :=
  exists dim_element dim dim_increment,
    find "dim" register = Some dim_element
    /\ py_int 10 (text dim_element) = Ok dim
    /\ (t <- find_text "dimIncrement" register ;; py_int 0 t) = Ok dim_increment.

(** Lines 70-104 with the layout written as [field_layout]: what the
    array branch does once the three [dim] elements are read. *)
Definition array_rest (register : Element) (pn : string) (pb rn : pytext)
  : result string :=
  size <- read_size_array register ;;
  offset <- read_address_offset register ;;
  base <- py_int 16 pb ;;
  entries <- mapM field_entry (findall "field" register) ;;
  body <- mapM (member_line name_column_array (get_register_type size))
               (field_layout size entries) ;;
  Ok (array_block pn rn (get_register_type size) body (hex (base + offset))).

(** The returned text of either branch. *)
Definition register_block (is_array : bool) (peripheral_name : string)
    (register_name : pytext) (register_type : string) (body : list string)
    (address : string) : string :=
  if is_array
  then array_block peripheral_name register_name register_type body address
  else scalar_block peripheral_name register_name register_type body address.

(** Lines 12-13 and 18: what is printed ahead of a peripheral's registers. *)
Definition banner (peripheral_name : string) : list string :=
  ["// " ++ peripheral_name; "// " ++ str_mul "=" (len peripheral_name)].

(** Lines 24-27 for registers that were emitted: each text, then an empty
    line. *)
Definition printed_blocks (texts : list string) : list string :=
  flat_map (fun t => [t; ""]) texts.

(** Two emitted texts that differ at most in the peripheral name inside
    the symbols and in the base the address is counted from: the same
    branch, register name, storage type, struct body and offset. *)
Definition same_register (n1 : string) (base1 : Z) (n2 : string) (base2 : Z)
    (t1 t2 : string) : Prop :=
  exists is_array rn register_type body offset,
    t1 = register_block is_array n1 rn register_type body (hex (base1 + offset))
    /\ t2 = register_block is_array n2 rn register_type body (hex (base2 + offset)).

Definition derived_note (peripheral_name derived_from : string) : string :=
  "// " ++ peripheral_name ++ " is derived from " ++ derived_from.

(** The consecutive condition the gap arithmetic relies on: every item
    starts after [last_end_bit] and ends no earlier than it starts. *)
Fixpoint chained (last_end_bit : Z) (items : list item) : Prop :=
  match items with
  | [] => True
  | x :: rest =>
      last_end_bit < start_bit x /\ start_bit x <= end_bit x /\ chained (end_bit x) rest
  end.

(** The dictionary as the source's words have it for repeated names: one
    item per name, standing where the name first occurs and holding the
    value of its last occurrence. *)
Fixpoint last_value (key : pytext) (entries : list item) (found : bit_range) : bit_range :=
  match entries with
  | [] => found
  | (k, v) :: rest => last_value key rest (if pytext_eqb k key then v else found)
  end.

Fixpoint last_wins_from (seen : list pytext) (entries : list item) : dict :=
  match entries with
  | [] => []
  | (k, v) :: rest =>
      if existsb (pytext_eqb k) seen then last_wins_from seen rest
      else (k, last_value k rest v) :: last_wins_from (seen ++ [k])%list rest
  end.

Definition last_wins (entries : list item) : dict := last_wins_from [] entries.

(** ** Further sample documents *)

(** A peripheral derived from a peripheral the document does not hold. *)
Definition orphan_peripheral : Element :=
  mkElement "peripheral" [("derivedFrom", "UART9")] None None
    [leaf "name" "UART2"; leaf "baseAddress" "0x40003000"].

(** A peripheral whose [name] element is empty, and one without any. *)
Definition unnamed_peripheral : Element :=
  node "peripheral"
    [mkElement "name" [] None None []; leaf "baseAddress" "0x40004000"].

Definition bare_peripheral : Element :=
  node "peripheral" [leaf "baseAddress" "0x40004000"].

(** The orphan sits between two peripherals that can be listed. *)
Definition broken_document : Element :=
  node "device" [node "peripherals" [uart0; orphan_peripheral; uart1]].

(** An array register whose [dim] is written in hexadecimal. *)
Definition hex_dim_register : Element :=
  node "register"
    [leaf "name" "BUF"; leaf "addressOffset" "0x20"; leaf "size" "8";
     leaf "dim" "0x4"; leaf "dimIncrement" "0x1"; leaf "dimIndex" "0-3"].

(** Registers without [addressOffset], scalar and array. *)
Definition no_offset_scalar : Element :=
  node "register" [leaf "name" "R"; leaf "size" "8"].

Definition no_offset_array : Element :=
  node "register"
    [leaf "name" "R"; leaf "size" "8";
     leaf "dim" "4"; leaf "dimIncrement" "1"; leaf "dimIndex" "0-3"].

(** ** Shapes of a layout *)

(** No reserved member directly after another one. *)
Fixpoint no_double_reserved (ms : list LayoutMember) : bool :=
  match ms with
  | [] => true
  | Reserved _ :: rest =>
      match rest with
      | Reserved _ :: _ => false
      | _ => no_double_reserved rest
      end
  | Named _ _ :: rest => no_double_reserved rest
  end.

(** ** What [extract_typedef] reads

    Of an element below a register the function looks at the tag and, for
    the seven tags below, at the text; never at attributes or tails.
    [strip] forgets everything else. *)

Definition is_read_tag (t : string) : bool :=
  String.eqb t "name" || String.eqb t "size" || String.eqb t "addressOffset"
  || String.eqb t "bitOffset" || String.eqb t "bitWidth"
  || String.eqb t "dim" || String.eqb t "dimIncrement".

Fixpoint strip (e : Element) : Element :=
  match e with
  | mkElement t a x tl cs =>
      mkElement t [] (if is_read_tag t then x else None) None (map strip cs)
  end.

(** ** [int_of_str] in two steps

    [all_blank] tells a string of blanks.  [sign_split] is the sign
    handling of [int_of_str] on the text after the leading blanks,
    [int_tail] everything after it, with the test for a leading
    underscore written as a boolean. *)

Fixpoint all_blank (s : string) : bool :=
  match s with
  | EmptyString => true
  | String c rest => is_space c && all_blank rest
  end.

Definition sign_split (s1 : string) : Z * string :=
  match s1 with
  | String "+" r => (1, r)
  | String "-" r => (-1, r)
  | _ => (1, s1)
  end.

Definition starts_with_underscore (s : string) : bool :=
  match s with
  | String c _ => Ascii.eqb c "_"
  | EmptyString => false
  end.

Definition int_tail (base sign : Z) (s2 : string) : result Z :=
  let '(base', error_if_nonzero) :=
    if base =? 0 then detect_base s2 else (base, false) in
  let s3 := skip_prefix base' s2 in
  if starts_with_underscore s3 then Raise ValueError
  else
    match scan_digits base' s3 0 false O with
    | None => Raise ValueError
    | Some (_, O, _) => Raise ValueError
    | Some (v, _, rest) =>
        if error_if_nonzero && negb (v =? 0) then Raise ValueError
        else
          match skip_spaces rest with
          | EmptyString => Ok (sign * v)
          | _ => Raise ValueError
          end
    end.

(** ** Tactics for characters *)

Ltac eval_char :=
  repeat match goal with
  | |- context [Ascii.eqb ?c "_"%char] =>
      let b := eval vm_compute in (Ascii.eqb c "_"%char) in
      change (Ascii.eqb c "_"%char) with b
  | |- context [digit_value ?c] =>
      let v := eval vm_compute in (digit_value c) in
      change (digit_value c) with v
  end.

Ltac eval_space :=
  repeat match goal with
  | |- context [is_space ?c] =>
      let b := eval vm_compute in (is_space c) in
      change (is_space c) with b
  end.

Ltac eval_prefix :=
  repeat match goal with
  | |- context [is_prefix_letter ?b ?c] =>
      let v := eval vm_compute in (is_prefix_letter b c) in
      change (is_prefix_letter b c) with v
  end.

Ltac all_chars c := destruct c as [[] [] [] [] [] [] [] []].

(** * Properties *)

(** ** The exception monad *)

Lemma bind_Ok_inv {A B : Type} (m : result A) (k : A -> result B) (b : B) :
  bind m k = Ok b -> exists a, m = Ok a /\ k a = Ok b.
Proof.
  destruct m as [a | e]; simpl; intro H.
  - exists a. split; [reflexivity | exact H].
  - discriminate H.
Qed.

Lemma mapM_app {A B : Type} (f : A -> result B) (l1 l2 : list A) :
  mapM f (l1 ++ l2)%list =
  (ys1 <- mapM f l1 ;; ys2 <- mapM f l2 ;; Ok (ys1 ++ ys2)%list).
Proof.
  induction l1 as [| x l1 IH]; simpl.
  - destruct (mapM f l2); reflexivity.
  - destruct (f x) as [y | e]; simpl; [| reflexivity].
    rewrite IH. destruct (mapM f l1) as [ys1 | e]; simpl; [| reflexivity].
    destruct (mapM f l2); reflexivity.
Qed.

Lemma mapM_total {A B : Type} (f : A -> result B) (g : A -> B) (l : list A) :
  (forall x, In x l -> f x = Ok (g x)) -> mapM f l = Ok (map g l).
Proof.
  induction l as [| x l IH]; simpl; intro H; [reflexivity |].
  rewrite (H x (or_introl eq_refl)). simpl.
  rewrite IH by (intros y Hy; apply H; right; exact Hy). reflexivity.
Qed.

(** ** The struct body is the layout, written out *)

Lemma field_loop_layout name_column register_type items last_end_bit :
  field_loop name_column register_type items last_end_bit =
  (lines <- mapM (member_line name_column register_type)
                 (fst (layout_loop items last_end_bit)) ;;
   Ok (lines, snd (layout_loop items last_end_bit))).
Proof.
  revert last_end_bit.
  induction items as [| [n [s e]] rest IH]; intro last; simpl; [reflexivity |].
  rewrite IH. rewrite mapM_app. simpl.
  destruct (negb (last + 1 =? s)); simpl;
    destruct (name_column n) as [col | err]; simpl; try reflexivity;
    destruct (mapM (member_line name_column register_type)
                   (fst (layout_loop rest e))); reflexivity.
Qed.

Lemma struct_body_layout name_column register_type total_bits items :
  struct_body name_column register_type total_bits items =
  mapM (member_line name_column register_type) (layout_members total_bits items).
Proof.
  unfold struct_body, layout_members. rewrite field_loop_layout, mapM_app.
  destruct (mapM (member_line name_column register_type)
                 (fst (layout_loop items (-1)))) as [lines | err]; simpl;
    [| reflexivity].
  destruct (snd (layout_loop items (-1)) <? total_bits - 1); simpl;
    [reflexivity | rewrite !app_nil_r; reflexivity].
Qed.

Lemma build_field_dict_entries fields d :
  build_field_dict fields d =
  (entries <- mapM field_entry fields ;;
   Ok (fold_left (fun d e => dict_set (fst e) (snd e) d) entries d)).
Proof.
  revert d. induction fields as [| f rest IH]; intro d; simpl; [reflexivity |].
  destruct (field_entry f) as [entry | err]; simpl; [| reflexivity].
  rewrite IH. destruct (mapM field_entry rest); reflexivity.
Qed.

(** ** [sorted] *)

Section Sorting.
Context {A : Type} (key : A -> Z).

Lemma insert_sorted_perm x l : Permutation (insert_sorted key x l) (x :: l).
Proof.
  induction l as [| y l IH]; simpl; [apply Permutation_refl |].
  destruct (key x <=? key y); [apply Permutation_refl |].
  eapply Permutation_trans; [apply perm_skip, IH | apply perm_swap].
Qed.

Lemma sorted_perm l : Permutation (sorted key l) l.
Proof.
  induction l as [| x l IH]; simpl; [apply perm_nil |].
  eapply Permutation_trans; [apply insert_sorted_perm | apply perm_skip, IH].
Qed.

Lemma insert_sorted_ordered x l :
  StronglySorted (key_le key) l -> StronglySorted (key_le key) (insert_sorted key x l).
Proof.
  induction 1 as [| y l Hs IH Hy]; simpl.
  - constructor; constructor.
  - destruct (key x <=? key y) eqn:E.
    + apply Z.leb_le in E. constructor; [constructor; assumption |].
      constructor; [exact E |].
      eapply Forall_impl; [| exact Hy]. unfold key_le. intros; lia.
    + apply Z.leb_gt in E. constructor; [exact IH |].
      apply (Permutation_Forall (Permutation_sym (insert_sorted_perm x l))).
      constructor; [unfold key_le; lia | exact Hy].
Qed.

Lemma sorted_ordered l : StronglySorted (key_le key) (sorted key l).
Proof.
  induction l as [| x l IH]; simpl; [constructor |].
  apply insert_sorted_ordered, IH.
Qed.

Lemma insert_sorted_id x l :
  Forall (fun y => key x <= key y) l -> insert_sorted key x l = x :: l.
Proof.
  destruct 1 as [| y l Hy _]; simpl; [reflexivity |].
  apply Z.leb_le in Hy. rewrite Hy. reflexivity.
Qed.

Lemma sorted_id l : StronglySorted (key_le key) l -> sorted key l = l.
Proof.
  induction 1 as [| x l _ IH Hx]; simpl; [reflexivity |].
  rewrite IH. apply insert_sorted_id, Hx.
Qed.
End Sorting.

(** ** [field_dict] *)

Lemma pytext_eqb_eq a b : pytext_eqb a b = true <-> a = b.
Proof.
  destruct a as [x |], b as [y |]; simpl; split; intro H;
    try discriminate; try reflexivity.
  - apply String.eqb_eq in H. subst. reflexivity.
  - injection H as ->. apply String.eqb_refl.
Qed.

Lemma pytext_eqb_refl a : pytext_eqb a a = true.
Proof. apply pytext_eqb_eq. reflexivity. Qed.

Lemma pytext_eqb_neq a b : pytext_eqb a b = false <-> a <> b.
Proof.
  split; intro H.
  - intro E. apply pytext_eqb_eq in E. congruence.
  - destruct (pytext_eqb a b) eqn:E; [| reflexivity].
    apply pytext_eqb_eq in E. contradiction.
Qed.

Lemma dict_set_keys key value d :
  map fst (dict_set key value d) =
  if existsb (pytext_eqb key) (map fst d) then map fst d
  else (map fst d ++ [key])%list.
Proof.
  induction d as [| [k v] rest IH]; simpl; [reflexivity |].
  destruct (pytext_eqb k key) eqn:E.
  - apply pytext_eqb_eq in E. subst. rewrite pytext_eqb_refl. reflexivity.
  - assert (pytext_eqb key k = false) as ->.
    { apply pytext_eqb_neq. apply pytext_eqb_neq in E. congruence. }
    simpl. rewrite IH. destruct (existsb (pytext_eqb key) (map fst rest)); reflexivity.
Qed.

Lemma existsb_key_In key keys :
  existsb (pytext_eqb key) keys = true <-> In key keys.
Proof.
  rewrite existsb_exists. split.
  - intros (k & Hk & E). apply pytext_eqb_eq in E. subst. exact Hk.
  - intro H. exists key. split; [exact H | apply pytext_eqb_refl].
Qed.

Lemma dict_set_NoDup key value d :
  NoDup (map fst d) -> NoDup (map fst (dict_set key value d)).
Proof.
  intro H. rewrite dict_set_keys.
  destruct (existsb (pytext_eqb key) (map fst d)) eqn:E; [exact H |].
  apply NoDup_app; [exact H | constructor; [intros [] | constructor] |].
  intros k Hk [<- | []].
  apply existsb_key_In in Hk. congruence.
Qed.

Lemma dict_set_In key value d x :
  In x (dict_set key value d) -> x = (key, value) \/ In x d.
Proof.
  induction d as [| [k v] rest IH]; simpl.
  - intros [<- | []]. left. reflexivity.
  - destruct (pytext_eqb k key) eqn:E; simpl.
    + apply pytext_eqb_eq in E. subst. intros [<- | H]; auto.
    + intros [<- | H]; auto. destruct (IH H); auto.
Qed.

Lemma dict_set_fresh key value d :
  ~ In key (map fst d) -> dict_set key value d = (d ++ [(key, value)])%list.
Proof.
  induction d as [| [k v] rest IH]; simpl; intro H; [reflexivity |].
  destruct (pytext_eqb k key) eqn:E.
  - apply pytext_eqb_eq in E. subst. exfalso. apply H. left. reflexivity.
  - rewrite IH by (intro; apply H; right; assumption). reflexivity.
Qed.

Lemma fold_dict_set_In entries : forall d x,
  In x (fold_left (fun d e => dict_set (fst e) (snd e) d) entries d) ->
  In x d \/ In x entries.
Proof.
  induction entries as [| [k v] rest IH]; simpl; intros d x H; [left; exact H |].
  destruct (IH _ _ H) as [H1 | H1]; [| right; right; exact H1].
  destruct (dict_set_In _ _ _ _ H1) as [-> | H2]; auto.
Qed.

Lemma fold_dict_set_NoDup entries : forall d,
  NoDup (map fst d) ->
  NoDup (map fst (fold_left (fun d e => dict_set (fst e) (snd e) d) entries d)).
Proof.
  induction entries as [| [k v] rest IH]; simpl; intros d H; [exact H |].
  apply IH, dict_set_NoDup, H.
Qed.

Lemma fold_dict_set_distinct entries : forall d,
  NoDup (map fst (d ++ entries)%list) ->
  fold_left (fun d e => dict_set (fst e) (snd e) d) entries d = (d ++ entries)%list.
Proof.
  induction entries as [| [k v] rest IH]; simpl; intros d H.
  - rewrite app_nil_r. reflexivity.
  - rewrite dict_set_fresh.
    + rewrite IH; rewrite <- app_assoc; simpl; [reflexivity | exact H].
    + rewrite map_app in H. simpl in H. apply NoDup_remove_2 in H.
      intro Hin. apply H. apply in_or_app. left. exact Hin.
Qed.

Lemma dict_of_entries_In entries x :
  In x (dict_of_entries entries) -> In x entries.
Proof.
  intro H. destruct (fold_dict_set_In _ _ _ H) as [[] | H']. exact H'.
Qed.

Lemma dict_of_entries_NoDup entries : NoDup (map fst (dict_of_entries entries)).
Proof. apply fold_dict_set_NoDup. constructor. Qed.

Lemma dict_of_entries_distinct entries :
  NoDup (map fst entries) -> dict_of_entries entries = entries.
Proof. intro H. apply (fold_dict_set_distinct entries []). exact H. Qed.

(** ** Placing members *)

Lemma total_width_app ms1 ms2 :
  total_width (ms1 ++ ms2) = total_width ms1 + total_width ms2.
Proof.
  induction ms1 as [| m ms1 IH]; simpl; [reflexivity |].
  unfold total_width in *. simpl. rewrite IH. lia.
Qed.

Lemma place_app from ms1 ms2 :
  place from (ms1 ++ ms2) =
  (place from ms1 ++ place (from + total_width ms1) ms2)%list.
Proof.
  revert from. induction ms1 as [| m ms1 IH]; intro from; simpl.
  - rewrite Z.add_0_r. reflexivity.
  - rewrite IH. unfold total_width. simpl.
    rewrite Z.add_assoc. reflexivity.
Qed.

Lemma place_from_le ms : forall from p m,
  Forall (fun m => 0 < member_width m) ms ->
  In (p, m) (place from ms) -> from <= p.
Proof.
  induction ms as [| m0 ms IH]; simpl; intros from p m Hpos H; [contradiction |].
  inversion Hpos as [| ? ? Hm0 Hrest]; subst.
  destruct H as [H | H].
  - injection H as <- _. lia.
  - specialize (IH _ _ _ Hrest H). lia.
Qed.

Lemma covering_before ms : forall from bit,
  Forall (fun m => 0 < member_width m) ms ->
  bit < from -> covering bit (place from ms) = [].
Proof.
  induction ms as [| m ms IH]; simpl; intros from bit Hpos Hlt; [reflexivity |].
  inversion Hpos as [| ? ? Hm Hrest]; subst.
  unfold covering in *. simpl.
  assert ((from <=? bit) = false) as -> by (apply Z.leb_gt; lia). simpl.
  apply IH; [exact Hrest | lia].
Qed.

(** Members of positive width laid end to end: each bit of the span they
    make lies in exactly one of them. *)
Lemma covering_exactly_one ms : forall from bit,
  Forall (fun m => 0 < member_width m) ms ->
  from <= bit < from + total_width ms ->
  List.length (covering bit (place from ms)) = 1%nat.
Proof.
  induction ms as [| m ms IH]; intros from bit Hpos Hbit.
  - unfold total_width in Hbit. simpl in Hbit. lia.
  - inversion Hpos as [| ? ? Hm Hrest]; subst.
    unfold total_width in Hbit. simpl in Hbit. fold (total_width ms) in Hbit.
    unfold covering. simpl.
    assert ((from <=? bit) = true) as -> by (apply Z.leb_le; lia). simpl.
    destruct (bit <? from + member_width m) eqn:E.
    + apply Z.ltb_lt in E. simpl. f_equal.
      fold (covering bit (place (from + member_width m) ms)).
      rewrite covering_before; [reflexivity | exact Hrest | exact E].
    + apply Z.ltb_ge in E.
      apply (IH (from + member_width m) bit Hrest). lia.
Qed.

Lemma place_ascending ms : forall from,
  Forall (fun m => 0 < member_width m) ms ->
  StronglySorted Z.lt (map fst (place from ms)).
Proof.
  induction ms as [| m ms IH]; intros from Hpos; simpl; [constructor |].
  inversion Hpos as [| ? ? Hm Hrest]; subst.
  constructor; [apply IH, Hrest |].
  apply Forall_forall. intros p Hp. apply in_map_iff in Hp.
  destruct Hp as ([p' m'] & <- & Hin). simpl.
  pose proof (place_from_le _ _ _ _ Hrest Hin). lia.
Qed.

(** ** The gap arithmetic *)

(** Whatever the items, the widths written add up to the distance from the
    starting [last_end_bit] to the final one. *)
Lemma layout_loop_width items : forall last,
  total_width (fst (layout_loop items last)) = snd (layout_loop items last) - last.
Proof.
  induction items as [| [n [s e]] rest IH]; intro last; simpl.
  - unfold total_width. simpl. lia.
  - rewrite total_width_app. unfold total_width at 2. simpl.
    fold (total_width (fst (layout_loop rest e))). rewrite IH.
    destruct (last + 1 =? s) eqn:E; simpl; unfold total_width; simpl.
    + apply Z.eqb_eq in E. lia.
    + lia.
Qed.

(** The final [last_end_bit] is the end bit of the last item. *)
Lemma layout_loop_last items : forall last,
  snd (layout_loop items last) = fold_left (fun _ x => end_bit x) items last.
Proof.
  induction items as [| [n [s e]] rest IH]; intro last; simpl; [reflexivity |].
  apply IH.
Qed.

Lemma layout_loop_bound bound items : forall last,
  last <= bound -> Forall (fun x => end_bit x <= bound) items ->
  snd (layout_loop items last) <= bound.
Proof.
  induction items as [| [n [s e]] rest IH]; intros last Hl H; simpl; [exact Hl |].
  inversion H as [| ? ? Hx Hrest]; subst. apply IH; assumption.
Qed.

(** Every named member sits at the start bit of its item. *)
Lemma layout_loop_named_at items : forall last p n w,
  In (p, Named n w) (place (last + 1) (fst (layout_loop items last))) ->
  In (n, (p, p + w - 1)) items.
Proof.
  induction items as [| [n0 [s e]] rest IH]; intros last p n w H; simpl in H;
    [contradiction |].
  rewrite place_app in H. apply in_app_or in H. destruct H as [H | H].
  - destruct (last + 1 =? s); simpl in H; [contradiction |].
    destruct H as [H | []]. discriminate H.
  - assert (Hfrom :
      last + 1 + total_width
        (if negb (last + 1 =? s) then [Reserved (s - last - 1)] else []) = s).
    { destruct (last + 1 =? s) eqn:E; unfold total_width; simpl;
        [apply Z.eqb_eq in E |]; lia. }
    rewrite Hfrom in H. simpl in H. destruct H as [H | H].
    + injection H as <- <- <-. left. do 2 f_equal. lia.
    + right. apply (IH e).
      replace (e + 1) with (s + (e - s + 1)) by lia. exact H.
Qed.

Lemma chained_after last items :
  chained last items -> Forall (fun x => last < start_bit x) items.
Proof.
  revert last. induction items as [| x rest IH]; intros last H; constructor.
  - apply H.
  - destruct H as (H1 & H2 & H3). eapply Forall_impl; [| apply (IH _ H3)].
    simpl. intros; lia.
Qed.

Lemma layout_loop_positive items : forall last,
  chained last items ->
  Forall (fun m => 0 < member_width m) (fst (layout_loop items last)).
Proof.
  induction items as [| [n [s e]] rest IH]; intros last H; simpl; [constructor |].
  destruct H as (H1 & H2 & H3). unfold start_bit, end_bit in H1, H2, H3. simpl in *.
  apply Forall_app. split.
  - destruct (last + 1 =? s) eqn:E; simpl; constructor; [simpl; lia | constructor].
  - constructor; [simpl; lia | apply IH, H3].
Qed.

(** Sorted by start bit, pairwise apart and none empty: then consecutive. *)
Lemma sorted_disjoint_chained items :
  StronglySorted (key_le start_bit) items ->
  NoDup items ->
  (forall x, In x items -> start_bit x <= end_bit x) ->
  (forall x y, In x items -> In y items -> x <> y ->
     end_bit x < start_bit y \/ end_bit y < start_bit x) ->
  forall last, (forall x, In x items -> last < start_bit x) ->
  chained last items.
Proof.
  induction 1 as [| x rest Hs IH Hx]; intros Hnd Hne Hdis last Hlast; simpl;
    [exact I |].
  inversion Hnd as [| ? ? Hnotin Hnd']; subst.
  split; [apply Hlast; left; reflexivity |].
  split; [apply Hne; left; reflexivity |].
  apply IH; [exact Hnd' | | |].
  - intros y Hy. apply Hne. right. exact Hy.
  - intros y z Hy Hz. apply Hdis; right; assumption.
  - intros y Hy.
    assert (Hxy : x <> y) by (intros ->; contradiction).
    rewrite Forall_forall in Hx. specialize (Hx y Hy). unfold key_le in Hx.
    pose proof (Hne y (or_intror Hy)).
    destruct (Hdis x y (or_introl eq_refl) (or_intror Hy) Hxy); lia.
Qed.

(** ** Well-formed registers *)

Lemma well_formed_items size fields :
  well_formed_register size fields ->
  let items := sorted start_bit (dict_of_entries (map entry_of fields)) in
  chained (-1) items
  /\ Forall (fun x => end_bit x <= size - 1) items
  /\ (forall x, In x items -> exists f, In f fields /\ x = entry_of f).
Proof.
  intros [Hin Hdis] items.
  assert (Hsrc : forall x, In x items -> exists f, In f fields /\ x = entry_of f).
  { intros x Hx. unfold items in Hx.
    apply (Permutation_in _ (sorted_perm start_bit _)) in Hx.
    apply dict_of_entries_In, in_map_iff in Hx.
    destruct Hx as (f & <- & Hf). exists f. split; [exact Hf | reflexivity]. }
  assert (Hfit : forall x, In x items ->
            0 <= start_bit x /\ start_bit x <= end_bit x /\ end_bit x <= size - 1).
  { intros x Hx. destruct (Hsrc x Hx) as (f & Hf & ->).
    rewrite Forall_forall in Hin. destruct (Hin f Hf) as (H1 & H2 & H3).
    unfold start_bit, end_bit, entry_of. simpl. lia. }
  split; [| split; [| exact Hsrc]].
  - apply sorted_disjoint_chained.
    + apply sorted_ordered.
    + apply (NoDup_map_inv fst).
      apply (Permutation_NoDup
               (Permutation_map fst (Permutation_sym (sorted_perm start_bit _)))).
      apply dict_of_entries_NoDup.
    + intros x Hx. apply (Hfit x Hx).
    + intros x y Hx Hy Hxy.
      destruct (Hsrc x Hx) as (f & Hf & ->). destruct (Hsrc y Hy) as (g & Hg & ->).
      unfold start_bit, end_bit, entry_of. simpl.
      destruct (ForallOrdPairs_In Hdis f g Hf Hg) as [-> | [H | H]];
        [contradiction Hxy; reflexivity | |]; unfold fields_disjoint in H; lia.
    + intros x Hx. destruct (Hfit x Hx). lia.
  - apply Forall_forall. intros x Hx. apply (Hfit x Hx).
Qed.

(** C1. Let the [field] elements of a register be read as [fields], each
    holding at least one bit, lying within [0, size) and pairwise
    disjoint.  Then the dictionary loop runs through, and the struct body
    written from its sorted items (lines 121-140, and 80-99 with the other
    name column) is, line by line, the sequence of members [members] of
    which the following holds: the widths sum to exactly [size]; every
    member has a positive width; laid end to end from bit 0 every bit of
    [0, size) falls in exactly one member; the members' start bits ascend;
    and every named member stands at the bit offset, and has the width, of
    a declared field of that name. *)
Theorem layout_covers_register (register : Element) (size : Z)
    (fields : list FieldDescriptor)
    (name_column : pytext -> result string) (register_type : string) :
  0 <= size ->
  mapM field_entry (findall "field" register) = Ok (map entry_of fields) ->
  well_formed_register size fields ->
  let members := field_layout size (map entry_of fields) in
  (field_dict <- build_field_dict (findall "field" register) [] ;;
   struct_body name_column register_type size (sorted start_bit field_dict))
    = mapM (member_line name_column register_type) members
  /\ total_width members = size
  /\ Forall (fun m => 0 < member_width m) members
  /\ (forall bit, 0 <= bit < size ->
        List.length (covering bit (place 0 members)) = 1%nat)
  /\ StronglySorted Z.lt (map fst (place 0 members))
  /\ (forall start n w,
        In (start, Named n w) (place 0 members) -> In (mkField n start w) fields).
Proof.
  intros Hsize Hread Hwf members.
  destruct (well_formed_items size fields Hwf) as (Hch & Hend & Hsrc).
  set (items := sorted start_bit (dict_of_entries (map entry_of fields))) in *.
  assert (Hmem : members =
    (fst (layout_loop items (-1)) ++
     (if snd (layout_loop items (-1)) <? size - 1
      then [Reserved (size - snd (layout_loop items (-1)) - 1)] else []))%list)
    by reflexivity.
  pose proof (layout_loop_width items (-1)) as Hw.
  pose proof (layout_loop_bound (size - 1) items (-1) ltac:(lia) Hend) as Hb.
  pose proof (layout_loop_positive items (-1) Hch) as Hpos.
  assert (Htotal : total_width members = size).
  { rewrite Hmem, total_width_app, Hw.
    destruct (snd (layout_loop items (-1)) <? size - 1) eqn:E;
      unfold total_width; simpl; [| apply Z.ltb_ge in E]; lia. }
  assert (Hall : Forall (fun m => 0 < member_width m) members).
  { rewrite Hmem. apply Forall_app. split; [exact Hpos |].
    destruct (snd (layout_loop items (-1)) <? size - 1) eqn:E; [| constructor].
    apply Z.ltb_lt in E. constructor; [simpl; lia | constructor]. }
  split.
  { rewrite build_field_dict_entries, Hread. cbn [bind].
    rewrite struct_body_layout. reflexivity. }
  split; [exact Htotal |]. split; [exact Hall |]. split; [| split].
  - intros bit Hbit. apply covering_exactly_one; [exact Hall | lia].
  - apply place_ascending, Hall.
  - intros start n w H. rewrite Hmem, place_app in H.
    apply in_app_or in H. destruct H as [H | H].
    + apply (layout_loop_named_at items (-1)) in H.
      destruct (Hsrc _ H) as ([n' o' w'] & Hf & E).
      unfold entry_of in E. simpl in E. injection E as -> -> E.
      assert (w = w') as -> by lia. exact Hf.
    + destruct (snd (layout_loop items (-1)) <? size - 1); simpl in H;
        [destruct H as [H | []]; discriminate H | contradiction].
Qed.

Lemma layout_covers_register_witness :
  let fields := [mkField (Some "TXE") 0 1; mkField (Some "RXNE") 5 1] in
  let members := field_layout 8 (map entry_of fields) in
  (field_dict <- build_field_dict (findall "field" uart_status) [] ;;
   struct_body name_column_scalar "uint8_t" 8 (sorted start_bit field_dict))
    = Ok ["    uint8_t TXE  : 1;"; "    uint8_t : 4;";
          "    uint8_t RXNE : 1;"; "    uint8_t : 2;"]
  /\ members = [Named (Some "TXE") 1; Reserved 4; Named (Some "RXNE") 1; Reserved 2]
  /\ total_width members = 8
  /\ (forall bit, 0 <= bit < 8 ->
        List.length (covering bit (place 0 members)) = 1%nat)
  /\ extract_typedef uart_status "UART0" (Some "0x40001000")
     = Ok (join newline
             ["typedef struct __attribute__((__packed__)) {";
              "    uint8_t TXE  : 1;";
              "    uint8_t : 4;";
              "    uint8_t RXNE : 1;";
              "    uint8_t : 2;";
              "} UART0_SRbits_t;";
              "#define UART0_SR (*(volatile uint8_t *)0x40001004)";
              "#define UART0_SRbits (*(volatile UART0_SRbits_t *)0x40001004)"]).
Proof.
  assert (Hwf : well_formed_register 8
                  [mkField (Some "TXE") 0 1; mkField (Some "RXNE") 5 1]).
  { split.
    - repeat constructor; simpl; lia.
    - repeat constructor; unfold fields_disjoint; simpl; lia. }
  pose proof (layout_covers_register uart_status 8
                [mkField (Some "TXE") 0 1; mkField (Some "RXNE") 5 1]
                name_column_scalar "uint8_t"
                ltac:(lia) eq_refl Hwf) as (H0 & H1 & _ & H3 & _).
  split; [rewrite H0; reflexivity |].
  split; [reflexivity |].
  split; [exact H1 |].
  split; [exact H3 |].
  vm_compute. reflexivity.
Defined.

(** ** Registers without gaps *)

Lemma covered_no_gap size items : forall last,
  chained last items ->
  Forall (fun x => end_bit x <= size - 1) items ->
  (forall bit, last < bit < size ->
     exists x, In x items /\ start_bit x <= bit <= end_bit x) ->
  fst (layout_loop items last) = map named_member items
  /\ size - 1 <= snd (layout_loop items last).
Proof.
  induction items as [| [n [s e]] rest IH]; intros last Hch Hend Hcov; simpl.
  - split; [reflexivity |].
    destruct (Z_lt_le_dec last (size - 1)) as [Hlt | Hge]; [| exact Hge].
    destruct (Hcov (last + 1) ltac:(lia)) as (x & [] & _).
  - destruct Hch as (H1 & H2 & H3). unfold start_bit, end_bit in H1, H2. simpl in H1, H2.
    inversion Hend as [| ? ? He Hend']; subst. unfold end_bit in He. simpl in He.
    pose proof (chained_after _ _ H3) as Hafter. rewrite Forall_forall in Hafter.
    assert (Hs : last + 1 = s).
    { destruct (Hcov (last + 1) ltac:(lia)) as (x & [<- | Hx] & Hb).
      - unfold start_bit in Hb. simpl in Hb. lia.
      - specialize (Hafter x Hx). unfold end_bit in Hafter. simpl in Hafter. lia. }
    apply Z.eqb_eq in Hs. rewrite Hs. simpl.
    destruct (IH e H3 Hend') as (IH1 & IH2).
    + intros bit Hbit. destruct (Hcov bit ltac:(lia)) as (x & [<- | Hx] & Hb).
      * unfold end_bit in Hb. simpl in Hb. lia.
      * exists x. split; assumption.
    + rewrite IH1. split; [reflexivity | exact IH2].
Qed.

Lemma named_members_not_reserved items :
  filter is_reserved (map named_member items) = [].
Proof. induction items as [| x items IH]; simpl; [reflexivity | exact IH]. Qed.

(** C7, as the code has it.  For a register with pairwise distinct field
    names whose fields each hold at least one bit, lie within [0, size),
    are pairwise disjoint and together cover every bit of [0, size), the
    layout is exactly the named members of the fields in ascending
    start-bit order, with no reserved member among them. *)
Theorem gapless_register_no_reserved (size : Z) (fields : list FieldDescriptor) :
  well_formed_register size fields ->
  NoDup (map name fields) ->
  fields_cover_register size fields ->
  field_layout size (map entry_of fields) =
    map named_member (sorted start_bit (map entry_of fields))
  /\ filter is_reserved (field_layout size (map entry_of fields)) = [].
Proof.
  intros Hwf Hnames Hcover.
  destruct (well_formed_items size fields Hwf) as (Hch & Hend & _).
  assert (Hdict : dict_of_entries (map entry_of fields) = map entry_of fields).
  { apply dict_of_entries_distinct. rewrite map_map. exact Hnames. }
  rewrite Hdict in Hch, Hend.
  set (items := sorted start_bit (map entry_of fields)) in *.
  destruct (covered_no_gap size items (-1) Hch Hend) as (H1 & H2).
  { intros bit Hbit. destruct (Hcover bit ltac:(lia)) as (f & Hf & Hb).
    exists (entry_of f). split.
    - apply (Permutation_in _ (Permutation_sym (sorted_perm start_bit _))).
      apply in_map. exact Hf.
    - unfold field_covers in Hb. unfold start_bit, end_bit, entry_of. simpl. lia. }
  assert (E : field_layout size (map entry_of fields) = map named_member items).
  { unfold field_layout, layout_members. rewrite Hdict. fold items. rewrite H1.
    apply Z.ltb_ge in H2. rewrite H2. apply app_nil_r. }
  split; [exact E |]. rewrite E. apply named_members_not_reserved.
Qed.

Lemma gapless_register_no_reserved_witness :
  let fields := [mkField (Some "RESERVED") 0 6; mkField (Some "PRI") 6 2] in
  field_layout 8 (map entry_of fields)
    = [Named (Some "RESERVED") 6; Named (Some "PRI") 2]
  /\ total_width (field_layout 8 (map entry_of fields)) = 8
  /\ filter is_reserved (field_layout 8 (map entry_of fields)) = [].
Proof.
  assert (Hwf : well_formed_register 8
                  [mkField (Some "RESERVED") 0 6; mkField (Some "PRI") 6 2]).
  { split.
    - repeat constructor; simpl; lia.
    - repeat constructor; unfold fields_disjoint; simpl; lia. }
  assert (Hnames : NoDup (map name
                  [mkField (Some "RESERVED") 0 6; mkField (Some "PRI") 6 2])).
  { simpl. constructor.
    - intros [H | []]. discriminate H.
    - constructor; [intros [] | constructor]. }
  assert (Hcover : fields_cover_register 8
                  [mkField (Some "RESERVED") 0 6; mkField (Some "PRI") 6 2]).
  { intros bit Hbit. destruct (Z_lt_le_dec bit 6).
    - exists (mkField (Some "RESERVED") 0 6). split; [left; reflexivity |].
      unfold field_covers. simpl. lia.
    - exists (mkField (Some "PRI") 6 2). split; [right; left; reflexivity |].
      unfold field_covers. simpl. lia. }
  pose proof (gapless_register_no_reserved 8 _ Hwf Hnames Hcover) as (H1 & H2).
  split; [exact H1 |]. split; [reflexivity | exact H2].
Defined.

(** C7 as stated fails where two fields share a name: the fields below
    cover [0, 8) without a gap, yet the layout opens with a reserved member
    in place of the first field. *)
Lemma gapless_register_reserved_counterexample :
  let fields := [mkField (Some "A") 0 4; mkField (Some "A") 4 4] in
  well_formed_register 8 fields
  /\ fields_cover_register 8 fields
  /\ mapM field_entry (findall "field" twice_named_register)
       = Ok (map entry_of fields)
  /\ field_layout 8 (map entry_of fields) = [Reserved 4; Named (Some "A") 4]
  /\ filter is_reserved (field_layout 8 (map entry_of fields)) <> []
  /\ extract_typedef twice_named_register "P" (Some "0x0")
       = Ok (join newline
               ["typedef struct __attribute__((__packed__)) {";
                "    uint8_t : 4;";
                "    uint8_t A    : 4;";
                "} P_Rbits_t;";
                "#define P_R (*(volatile uint8_t *)0x0)";
                "#define P_Rbits (*(volatile P_Rbits_t *)0x0)"]).
Proof.
  split; [| split; [| split; [| split; [| split]]]].
  - split.
    + repeat constructor; simpl; lia.
    + repeat constructor; unfold fields_disjoint; simpl; lia.
  - intros bit Hbit. destruct (Z_lt_le_dec bit 4).
    + exists (mkField (Some "A") 0 4). split; [left; reflexivity |].
      unfold field_covers. simpl. lia.
    + exists (mkField (Some "A") 4 4). split; [right; left; reflexivity |].
      unfold field_covers. simpl. lia.
  - reflexivity.
  - reflexivity.
  - discriminate.
  - vm_compute. reflexivity.
Qed.

(** ** What [extract_typedef] returns

    Both branches read the register, lay its fields out and write the
    block; the layout itself cannot raise. *)

Lemma extract_typedef_scalar_layout register pn pb rn :
  extract_typedef_scalar register pn pb rn =
  (size <- read_size_scalar register ;;
   base <- py_int 16 pb ;;
   offset <- read_address_offset register ;;
   entries <- mapM field_entry (findall "field" register) ;;
   body <- mapM (member_line name_column_scalar (get_register_type size))
                (field_layout size entries) ;;
   Ok (scalar_block pn rn (get_register_type size) body (hex (base + offset)))).
Proof.
  unfold extract_typedef_scalar.
  destruct (read_size_scalar register) as [size | e]; simpl; [| reflexivity].
  destruct (py_int 16 pb) as [base | e]; simpl; [| reflexivity].
  destruct (read_address_offset register) as [offset | e]; simpl; [| reflexivity].
  rewrite build_field_dict_entries.
  destruct (mapM field_entry (findall "field" register)) as [entries | e]; simpl;
    [| reflexivity].
  rewrite struct_body_layout. reflexivity.
Qed.

Lemma extract_typedef_array_layout register dim_element pn pb rn :
  extract_typedef_array register dim_element pn pb rn =
  (dim <- py_int 10 (text dim_element) ;;
   dim_increment <- (t <- find_text "dimIncrement" register ;; py_int 0 t) ;;
   dim_index <- find_text "dimIndex" register ;;
   size <- read_size_array register ;;
   offset <- read_address_offset register ;;
   base <- py_int 16 pb ;;
   entries <- mapM field_entry (findall "field" register) ;;
   body <- mapM (member_line name_column_array (get_register_type size))
                (field_layout size entries) ;;
   Ok (array_block pn rn (get_register_type size) body (hex (base + offset)))).
Proof.
  unfold extract_typedef_array.
  destruct (py_int 10 (text dim_element)) as [dim | e]; simpl; [| reflexivity].
  destruct (t <- find_text "dimIncrement" register ;; py_int 0 t) as [inc | e];
    simpl; [| reflexivity].
  destruct (find_text "dimIndex" register) as [idx | e]; simpl; [| reflexivity].
  destruct (read_size_array register) as [size | e]; simpl; [| reflexivity].
  destruct (read_address_offset register) as [offset | e]; simpl; [| reflexivity].
  destruct (py_int 16 pb) as [base | e]; simpl; [| reflexivity].
  rewrite build_field_dict_entries.
  destruct (mapM field_entry (findall "field" register)) as [entries | e]; simpl;
    [| reflexivity].
  rewrite struct_body_layout. reflexivity.
Qed.

(** In the array branch every member has a line. *)
Lemma member_line_array_total register_type members :
  mapM (member_line name_column_array register_type) members =
  Ok (map (fun m =>
             match m with
             | Reserved w => reserved_line register_type w
             | Named n w => named_line register_type (fmt n) w
             end) members).
Proof.
  apply mapM_total. intros [n w | w] _; reflexivity.
Qed.

Lemma append_cancel_l (s a b : string) : s ++ a = s ++ b -> a = b.
Proof.
  induction s as [| c s IH]; simpl; intro H; [exact H |].
  injection H as H. apply IH, H.
Qed.

Lemma raw_macros_differ pn rn ty ty' a a' :
  array_raw_macro pn rn ty a <> scalar_raw_macro pn rn ty' a'.
Proof.
  unfold array_raw_macro, scalar_raw_macro. intro H.
  do 4 apply append_cancel_l in H. discriminate H.
Qed.

Lemma bits_macros_differ pn rn a a' :
  array_bits_macro pn rn a <> scalar_bits_macro pn rn a'.
Proof.
  unfold array_bits_macro, scalar_bits_macro. intro H.
  do 4 apply append_cancel_l in H. discriminate H.
Qed.

(** ** Addressing modes *)

(** C4. A register without a [dim] child, once emitted, ends in two macros
    that both dereference a volatile pointer at the address
    [int(base, 16) + int(addressOffset, 16)]: the raw macro through the
    storage type resolved from the size, the bitfield macro through the
    generated struct type. *)
Theorem scalar_register_dereferenced register pn pb text :
  find "dim" register = None ->
  extract_typedef register pn pb = Ok text ->
  exists rn size base offset body,
    find_text "name" register = Ok rn
    /\ read_size_scalar register = Ok size
    /\ py_int 16 pb = Ok base
    /\ read_address_offset register = Ok offset
    /\ text =
       join newline
         ([typedef_open] ++ body ++
          [typedef_close pn rn;
           ("#define " ++ pn ++ "_" ++ fmt rn
              ++ " (*(volatile " ++ get_register_type size ++ " *)"
              ++ hex (base + offset) ++ ")")%string;
           ("#define " ++ pn ++ "_" ++ fmt rn
              ++ "bits (*(volatile " ++ pn ++ "_" ++ fmt rn ++ "bits_t *)"
              ++ hex (base + offset) ++ ")")%string])%list.
Proof.
  intros Hdim H. unfold extract_typedef in H. rewrite Hdim in H.
  apply bind_Ok_inv in H. destruct H as (rn & Hrn & H).
  rewrite extract_typedef_scalar_layout in H.
  apply bind_Ok_inv in H. destruct H as (size & Hsize & H).
  apply bind_Ok_inv in H. destruct H as (base & Hbase & H).
  apply bind_Ok_inv in H. destruct H as (offset & Hoff & H).
  apply bind_Ok_inv in H. destruct H as (entries & _ & H).
  apply bind_Ok_inv in H. destruct H as (body & _ & H).
  injection H as <-.
  exists rn, size, base, offset, body. repeat split; assumption.
Qed.

Lemma scalar_register_dereferenced_witness :
  extract_typedef tim_ctrl "TIM" (Some "0x40000000")
    = Ok (join newline
            ["typedef struct __attribute__((__packed__)) {";
             "    uint16_t : 16;";
             "} TIM_CTRLbits_t;";
             "#define TIM_CTRL (*(volatile uint16_t *)0x40000010)";
             "#define TIM_CTRLbits (*(volatile TIM_CTRLbits_t *)0x40000010)"])
  /\ exists size base offset,
       read_size_scalar tim_ctrl = Ok size
       /\ py_int 16 (Some "0x40000000") = Ok base
       /\ read_address_offset tim_ctrl = Ok offset
       /\ size = 16 /\ hex (base + offset) = "0x40000010".
Proof.
  assert (E : extract_typedef tim_ctrl "TIM" (Some "0x40000000")
    = Ok (join newline
            ["typedef struct __attribute__((__packed__)) {";
             "    uint16_t : 16;";
             "} TIM_CTRLbits_t;";
             "#define TIM_CTRL (*(volatile uint16_t *)0x40000010)";
             "#define TIM_CTRLbits (*(volatile TIM_CTRLbits_t *)0x40000010)"]))
    by (vm_compute; reflexivity).
  split; [exact E |].
  destruct (scalar_register_dereferenced tim_ctrl "TIM" (Some "0x40000000") _
              eq_refl E) as (rn & size & base & offset & body & _ & H2 & H3 & H4 & _).
  exists size, base, offset.
  split; [exact H2 |]. split; [exact H3 |]. split; [exact H4 |].
  vm_compute in H2, H3, H4.
  injection H2 as <-. injection H3 as <-. injection H4 as <-.
  split; reflexivity.
Defined.

(** C3. A register with a [dim] child, once emitted, ends in two macros
    that are volatile pointers, not dereferenced, at the address
    [int(base, 16) + int(addressOffset, 16)]: the raw macro to the storage
    type resolved from the size, the bitfield macro to the generated struct
    type.  Under the same names neither macro can equal its scalar
    counterpart, whatever the type and address of the latter. *)
Theorem array_register_not_dereferenced register dim_element pn pb text :
  find "dim" register = Some dim_element ->
  extract_typedef register pn pb = Ok text ->
  exists rn size base offset body,
    find_text "name" register = Ok rn
    /\ read_size_array register = Ok size
    /\ py_int 16 pb = Ok base
    /\ read_address_offset register = Ok offset
    /\ text =
       join newline
         ([typedef_open] ++ body ++
          [typedef_close pn rn;
           ("#define " ++ pn ++ "_" ++ fmt rn
              ++ " ((volatile " ++ get_register_type size ++ " *)"
              ++ hex (base + offset) ++ ")")%string;
           ("#define " ++ pn ++ "_" ++ fmt rn
              ++ "bits ((volatile " ++ pn ++ "_" ++ fmt rn ++ "bits_t *)"
              ++ hex (base + offset) ++ ")")%string])%list
    /\ (forall ty' a',
          array_raw_macro pn rn (get_register_type size) (hex (base + offset))
            <> scalar_raw_macro pn rn ty' a'
          /\ array_bits_macro pn rn (hex (base + offset))
            <> scalar_bits_macro pn rn a').
Proof.
  intros Hdim H. unfold extract_typedef in H. rewrite Hdim in H.
  apply bind_Ok_inv in H. destruct H as (rn & Hrn & H).
  rewrite extract_typedef_array_layout in H.
  apply bind_Ok_inv in H. destruct H as (dim & _ & H).
  apply bind_Ok_inv in H. destruct H as (inc & _ & H).
  apply bind_Ok_inv in H. destruct H as (idx & _ & H).
  apply bind_Ok_inv in H. destruct H as (size & Hsize & H).
  apply bind_Ok_inv in H. destruct H as (offset & Hoff & H).
  apply bind_Ok_inv in H. destruct H as (base & Hbase & H).
  apply bind_Ok_inv in H. destruct H as (entries & _ & H).
  apply bind_Ok_inv in H. destruct H as (body & _ & H).
  injection H as <-.
  exists rn, size, base, offset, body.
  repeat split; try assumption.
  - apply raw_macros_differ.
  - apply bits_macros_differ.
Qed.

Lemma array_register_not_dereferenced_witness :
  extract_typedef nvic_ip "NVIC" (Some "0xE000E100")
    = Ok (join newline
            ["typedef struct __attribute__((__packed__)) {";
             "    uint8_t RESERVED: 6;";
             "    uint8_t PRI: 2;";
             "} NVIC_IPbits_t;";
             "#define NVIC_IP ((volatile uint8_t *)0xe000e400)";
             "#define NVIC_IPbits ((volatile NVIC_IPbits_t *)0xe000e400)"])
  /\ extract_typedef nvic_ip_scalar "NVIC" (Some "0xE000E100")
    = Ok (join newline
            ["typedef struct __attribute__((__packed__)) {";
             "    uint8_t RESERVED: 6;";
             "    uint8_t PRI  : 2;";
             "} NVIC_IPbits_t;";
             "#define NVIC_IP (*(volatile uint8_t *)0xe000e400)";
             "#define NVIC_IPbits (*(volatile NVIC_IPbits_t *)0xe000e400)"])
  /\ exists size base offset,
       read_size_array nvic_ip = Ok size
       /\ py_int 16 (Some "0xE000E100") = Ok base
       /\ read_address_offset nvic_ip = Ok offset
       /\ size = 8 /\ hex (base + offset) = "0xe000e400".
Proof.
  assert (E : extract_typedef nvic_ip "NVIC" (Some "0xE000E100")
    = Ok (join newline
            ["typedef struct __attribute__((__packed__)) {";
             "    uint8_t RESERVED: 6;";
             "    uint8_t PRI: 2;";
             "} NVIC_IPbits_t;";
             "#define NVIC_IP ((volatile uint8_t *)0xe000e400)";
             "#define NVIC_IPbits ((volatile NVIC_IPbits_t *)0xe000e400)"]))
    by (vm_compute; reflexivity).
  split; [exact E |]. split; [vm_compute; reflexivity |].
  destruct (array_register_not_dereferenced nvic_ip (leaf "dim" "32")
              "NVIC" (Some "0xE000E100") _ eq_refl E)
    as (rn & size & base & offset & body & _ & H2 & H3 & H4 & _).
  exists size, base, offset.
  split; [exact H2 |]. split; [exact H3 |]. split; [exact H4 |].
  vm_compute in H2, H3, H4.
  injection H2 as <-. injection H3 as <-. injection H4 as <-.
  split; reflexivity.
Defined.

(** ** Registers without fields *)

(** C8. A register of positive size that declares no field has an empty
    dictionary, its layout is the single member [Reserved size], and the
    struct body written for it is the one reserved line of that width. *)
Theorem no_fields_single_reserved register size name_column register_type :
  findall "field" register = [] ->
  0 < size ->
  build_field_dict (findall "field" register) [] = Ok []
  /\ field_layout size [] = [Reserved size]
  /\ struct_body name_column register_type size (sorted start_bit [])
       = Ok [reserved_line register_type size].
Proof.
  intros Hnone Hsize. rewrite Hnone. split; [reflexivity |].
  assert (E : field_layout size [] = [Reserved size]).
  { unfold field_layout, layout_members. simpl.
    assert ((-1 <? size - 1) = true) as -> by (apply Z.ltb_lt; lia).
    simpl. do 2 f_equal. lia. }
  split; [exact E |].
  rewrite struct_body_layout. change (sorted start_bit []) with (@nil item).
  change (layout_members size []) with (field_layout size []).
  rewrite E. reflexivity.
Qed.

Lemma no_fields_single_reserved_witness :
  field_layout 32 [] = [Reserved 32]
  /\ struct_body name_column_scalar "uint32_t" 32 (sorted start_bit [])
       = Ok ["    uint32_t : 32;"]
  /\ extract_typedef plain_register "P" (Some "0x40000000")
       = Ok (join newline
               ["typedef struct __attribute__((__packed__)) {";
                "    uint32_t : 32;";
                "} P_DATAbits_t;";
                "#define P_DATA (*(volatile uint32_t *)0x40000004)";
                "#define P_DATAbits (*(volatile P_DATAbits_t *)0x40000004)"]).
Proof.
  destruct (no_fields_single_reserved plain_register 32 name_column_scalar
              "uint32_t" eq_refl ltac:(lia)) as (_ & H2 & H3).
  split; [exact H2 |]. split; [exact H3 |]. vm_compute. reflexivity.
Defined.

(** ** Repeated field names *)

Lemma last_value_map_fresh key value rest (d : dict) :
  ~ In key (map fst d) ->
  map (fun kv => (fst kv,
                  last_value (fst kv) rest
                    (if pytext_eqb key (fst kv) then value else snd kv))) d
  = map (fun kv => (fst kv, last_value (fst kv) rest (snd kv))) d.
Proof.
  intro H. apply map_ext_in. intros [k v] Hin. simpl.
  assert (pytext_eqb key k = false) as ->; [| reflexivity].
  apply pytext_eqb_neq. intros ->. apply H.
  apply in_map_iff. exists (k, v). split; [reflexivity | exact Hin].
Qed.

Lemma last_value_map_set key value rest (d : dict) :
  NoDup (map fst d) -> In key (map fst d) ->
  map (fun kv => (fst kv, last_value (fst kv) rest (snd kv))) (dict_set key value d)
  = map (fun kv => (fst kv,
                    last_value (fst kv) rest
                      (if pytext_eqb key (fst kv) then value else snd kv))) d.
Proof.
  induction d as [| [k v] d IH]; simpl; intros Hnd Hin; [contradiction |].
  inversion Hnd as [| ? ? Hk Hnd']; subst.
  destruct (pytext_eqb k key) eqn:E.
  - apply pytext_eqb_eq in E. subst k. simpl. rewrite pytext_eqb_refl.
    f_equal. symmetry. apply last_value_map_fresh. exact Hk.
  - assert (pytext_eqb key k = false) as ->.
    { apply pytext_eqb_neq. apply pytext_eqb_neq in E. congruence. }
    simpl. f_equal. apply IH; [exact Hnd' |].
    destruct Hin as [-> | Hin]; [| exact Hin].
    rewrite pytext_eqb_refl in E. discriminate E.
Qed.

Lemma fold_dict_set_last_wins entries : forall d,
  NoDup (map fst d) ->
  fold_left (fun d e => dict_set (fst e) (snd e) d) entries d =
  (map (fun kv => (fst kv, last_value (fst kv) entries (snd kv))) d
   ++ last_wins_from (map fst d) entries)%list.
Proof.
  induction entries as [| [k v] rest IH]; intros d Hnd; simpl.
  - rewrite app_nil_r. symmetry. erewrite map_ext; [apply map_id |].
    intros [k v]. reflexivity.
  - rewrite (IH _ (dict_set_NoDup k v d Hnd)). rewrite dict_set_keys.
    destruct (existsb (pytext_eqb k) (map fst d)) eqn:E.
    + f_equal. apply last_value_map_set; [exact Hnd |].
      apply existsb_key_In. exact E.
    + assert (Hk : ~ In k (map fst d)).
      { intro Hin. apply existsb_key_In in Hin. congruence. }
      rewrite dict_set_fresh by exact Hk.
      rewrite map_app, <- app_assoc. simpl.
      rewrite last_value_map_fresh by exact Hk. reflexivity.
Qed.

Lemma layout_loop_named items : forall last,
  filter is_named (fst (layout_loop items last)) = map named_member items.
Proof.
  induction items as [| [n [s e]] rest IH]; intro last; simpl; [reflexivity |].
  rewrite filter_app. simpl. rewrite IH.
  destruct (negb (last + 1 =? s)); reflexivity.
Qed.

Lemma layout_members_named total_bits items :
  filter is_named (layout_members total_bits items) = map named_member items.
Proof.
  unfold layout_members. rewrite filter_app, layout_loop_named.
  destruct (snd (layout_loop items (-1)) <? total_bits - 1); simpl;
    apply app_nil_r.
Qed.

(** C9. The dictionary built from the declared fields holds one item per
    name, standing where the name first occurs and holding the bit range of
    the last field of that name; building it raises nothing on account of
    a repeated name; the named members of the layout are the members of
    exactly these items; so there are at most as many named members as
    declared fields, and strictly fewer as soon as two fields share a
    name. *)
Theorem repeated_name_last_wins
    (size : Z) (fields : list FieldDescriptor) (elements : list Element) :
  let entries := map entry_of fields in
  let named := filter is_named (field_layout size entries) in
  dict_of_entries entries = last_wins entries
  /\ (mapM field_entry elements = Ok entries ->
      build_field_dict elements [] = Ok (last_wins entries))
  /\ named = map named_member (sorted start_bit (last_wins entries))
  /\ (List.length named <= List.length fields)%nat
  /\ (~ NoDup (map name fields) -> (List.length named < List.length fields)%nat).
Proof.
  intros entries named.
  assert (E1 : dict_of_entries entries = last_wins entries).
  { unfold dict_of_entries. rewrite fold_dict_set_last_wins by constructor.
    reflexivity. }
  assert (E2 : named = map named_member (sorted start_bit (last_wins entries))).
  { unfold named, field_layout. rewrite layout_members_named, E1. reflexivity. }
  assert (Hlen : List.length named = List.length (map fst (dict_of_entries entries))).
  { rewrite E2, <- E1, !length_map.
    apply Permutation_length, sorted_perm. }
  assert (Hincl : incl (map fst (dict_of_entries entries)) (map name fields)).
  { intros k Hk. apply in_map_iff in Hk. destruct Hk as (x & <- & Hx).
    apply dict_of_entries_In in Hx. unfold entries in Hx.
    apply in_map_iff in Hx. destruct Hx as (f & <- & Hf).
    apply in_map_iff. exists f. split; [reflexivity | exact Hf]. }
  pose proof (dict_of_entries_NoDup entries) as Hnd.
  split; [exact E1 |]. split; [| split; [exact E2 |]; split].
  - intro Hread. rewrite build_field_dict_entries, Hread. simpl.
    f_equal. exact E1.
  - rewrite Hlen, <- (length_map name fields).
    apply NoDup_incl_length; assumption.
  - intro Hdup. rewrite Hlen, <- (length_map name fields).
    destruct (Nat.lt_ge_cases
                (List.length (map fst (dict_of_entries entries)))
                (List.length (map name fields))) as [Hlt | Hge]; [exact Hlt |].
    exfalso. apply Hdup.
    apply (NoDup_incl_NoDup Hnd Hge Hincl).
Qed.

Lemma repeated_name_last_wins_witness :
  let fields := [mkField (Some "A") 0 4; mkField (Some "B") 6 2; mkField (Some "A") 4 1] in
  build_field_dict (findall "field" repeated_register) []
    = Ok [(Some "A", (4, 4)); (Some "B", (6, 7))]
  /\ field_layout 8 (map entry_of fields)
       = [Reserved 4; Named (Some "A") 1; Reserved 1; Named (Some "B") 2]
  /\ (List.length (filter is_named (field_layout 8 (map entry_of fields)))
        < List.length fields)%nat.
Proof.
  pose proof (repeated_name_last_wins 8
                [mkField (Some "A") 0 4; mkField (Some "B") 6 2; mkField (Some "A") 4 1]
                (findall "field" repeated_register))
    as (_ & Hbuild & _ & _ & Hfewer).
  split; [exact (Hbuild eq_refl) |]. split; [reflexivity |].
  apply Hfewer. simpl. intro H. inversion H as [| ? ? Hnotin _]; subst.
  apply Hnotin. right. left. reflexivity.
Defined.

(** ** Overlapping and oversized fields *)

Lemma layout_members_width total_bits items :
  total_width (layout_members total_bits items) =
  Z.max total_bits (fold_left (fun _ x => end_bit x) items (-1) + 1).
Proof.
  unfold layout_members. rewrite total_width_app, layout_loop_width.
  rewrite <- layout_loop_last.
  destruct (snd (layout_loop items (-1)) <? total_bits - 1) eqn:E;
    unfold total_width; simpl; [apply Z.ltb_lt in E | apply Z.ltb_ge in E]; lia.
Qed.

Lemma layout_loop_gap before x y after : forall last,
  end_bit x + 1 <> start_bit y ->
  In (Reserved (start_bit y - end_bit x - 1))
     (fst (layout_loop (before ++ x :: y :: after) last)).
Proof.
  induction before as [| [n [s e]] before IH]; intros last Hgap.
  - destruct x as [nx [sx ex]], y as [ny [sy ey]].
    unfold start_bit, end_bit in *. simpl in *.
    apply in_or_app. right. right.
    apply Z.eqb_neq in Hgap. rewrite Hgap. left. reflexivity.
  - simpl. apply in_or_app. right. right. apply IH, Hgap.
Qed.

Lemma for_each_app {A} (xs ys : list A) (body : A -> io unit) out :
  for_each (xs ++ ys) body out =
  match for_each xs body out with
  | (out', Ok _) => for_each ys body out'
  | (out', Raise e) => (out', Raise e)
  end.
Proof.
  revert out. induction xs as [| x xs IH]; intro out; simpl; [reflexivity |].
  unfold io_bind. destruct (body x out) as [out1 [[] | e]]; [apply IH | reflexivity].
Qed.

Lemma print_register_atomic pn pb register out :
  print_register pn pb register out =
  match extract_typedef register pn pb with
  | Ok block => ((out ++ [block; ""])%list, Ok tt)
  | Raise e => (out, Raise e)
  end.
Proof.
  unfold print_register, io_bind, lift, print.
  destruct (extract_typedef register pn pb) as [block | e]; [| reflexivity].
  rewrite <- app_assoc. reflexivity.
Qed.

Lemma member_line_scalar_total register_type members :
  Forall (fun m => match m with Named None _ => False | _ => True end) members ->
  exists body,
    mapM (member_line name_column_scalar register_type) members = Ok body
    /\ List.length body = List.length members.
Proof.
  induction 1 as [| m members Hm _ (body & IH & Hlen)]; simpl.
  - exists []. split; reflexivity.
  - destruct m as [[n |] w | w]; simpl; [| contradiction |]; rewrite IH; simpl;
      eexists; (split; [reflexivity | simpl; f_equal; exact Hlen]).
Qed.

Lemma layout_loop_names items : forall last m,
  In m (fst (layout_loop items last)) ->
  match m with Named n _ => In n (map fst items) | Reserved _ => True end.
Proof.
  induction items as [| [n [s e]] rest IH]; intros last m H; simpl in H;
    [contradiction |].
  apply in_app_or in H. destruct H as [H | [<- | H]].
  - destruct (negb (last + 1 =? s)); simpl in H; [| contradiction].
    destruct H as [<- | []]. exact I.
  - left. reflexivity.
  - specialize (IH _ _ H). destruct m; [right; exact IH | exact I].
Qed.

Lemma field_layout_names size entries m :
  In m (field_layout size entries) ->
  match m with Named n _ => In n (map fst entries) | Reserved _ => True end.
Proof.
  unfold field_layout, layout_members. intro H.
  apply in_app_or in H. destruct H as [H | H].
  - apply layout_loop_names in H. destruct m; [| exact I].
    apply (Permutation_in _ (Permutation_map fst (sorted_perm start_bit _))) in H.
    apply in_map_iff in H. destruct H as (x & <- & Hx).
    apply dict_of_entries_In in Hx. apply in_map. exact Hx.
  - destruct (snd (layout_loop _ _) <? size - 1); simpl in H; [| contradiction].
    destruct H as [<- | []]. exact I.
Qed.

(** C2, as the code has it.  No check of the layout exists, so overlapping
    or oversized fields do not stop generation.  For a register whose name,
    size, addresses and fields can be read: in the scalar branch (given
    that every field has a name) and in the array branch (given that [dim]
    and [dimIncrement] are numeric and [dimIndex] is present) the whole
    block is returned, one line per member of the layout.  The member
    widths of that layout sum to the larger of [size] and one more than the
    end bit of the last field in start-bit order, and wherever a field does
    not start right after the end bit of the field sorted before it, a
    reserved member of width start - end - 1 is written, which is negative
    when the two overlap.  Printing is all or nothing: the block is printed
    whole, or the exception leaves the output as it was. *)
Theorem inconsistent_layout_is_emitted
    register pn pb rn size base offset entries :
  find_text "name" register = Ok rn ->
  py_int 16 pb = Ok base ->
  read_address_offset register = Ok offset ->
  mapM field_entry (findall "field" register) = Ok entries ->
  let members := field_layout size entries in
  let items := sorted start_bit (dict_of_entries entries) in
  (find "dim" register = None ->
   read_size_scalar register = Ok size ->
   Forall (fun x => fst x <> None) entries ->
   exists body,
     extract_typedef register pn pb
       = Ok (scalar_block pn rn (get_register_type size) body (hex (base + offset)))
     /\ mapM (member_line name_column_scalar (get_register_type size)) members
          = Ok body
     /\ List.length body = List.length members)
  /\ (forall dim_element dim dim_increment dim_index,
        find "dim" register = Some dim_element ->
        py_int 10 (text dim_element) = Ok dim ->
        (t <- find_text "dimIncrement" register ;; py_int 0 t) = Ok dim_increment ->
        find_text "dimIndex" register = Ok dim_index ->
        read_size_array register = Ok size ->
        exists body,
          extract_typedef register pn pb
            = Ok (array_block pn rn (get_register_type size) body (hex (base + offset)))
          /\ mapM (member_line name_column_array (get_register_type size)) members
               = Ok body
          /\ List.length body = List.length members)
  /\ total_width members
       = Z.max size (fold_left (fun _ x => end_bit x) items (-1) + 1)
  /\ (forall before x y after,
        items = (before ++ x :: y :: after)%list ->
        start_bit y <= end_bit x ->
        In (Reserved (start_bit y - end_bit x - 1)) members
        /\ start_bit y - end_bit x - 1 < 0)
  /\ (forall out,
        print_register pn pb register out =
        match extract_typedef register pn pb with
        | Ok block => ((out ++ [block; ""])%list, Ok tt)
        | Raise e => (out, Raise e)
        end).
Proof.
  intros Hrn Hbase Hoff Hentries members items.
  split; [| split; [| split; [| split]]].
  - intros Hdim Hsize Hnames.
    destruct (member_line_scalar_total (get_register_type size) members)
      as (body & Hbody & Hlen).
    { apply Forall_forall. intros m Hm.
      pose proof (field_layout_names _ _ _ Hm) as Hn.
      destruct m as [[n |] w | w]; try exact I.
      apply in_map_iff in Hn. destruct Hn as (x & Hx & Hin).
      rewrite Forall_forall in Hnames. exact (Hnames x Hin Hx). }
    exists body. split; [| split; assumption].
    unfold extract_typedef. rewrite Hrn, Hdim. simpl.
    rewrite extract_typedef_scalar_layout, Hsize, Hbase, Hoff, Hentries. simpl.
    fold members. rewrite Hbody. reflexivity.
  - intros d dim inc idx Hdim Hd Hinc Hidx Hsize.
    exists (map (fun m =>
                   match m with
                   | Reserved w => reserved_line (get_register_type size) w
                   | Named n w => named_line (get_register_type size) (fmt n) w
                   end) members).
    split; [| split; [apply member_line_array_total | apply length_map]].
    unfold extract_typedef. rewrite Hrn, Hdim. simpl.
    rewrite extract_typedef_array_layout, Hd, Hinc, Hidx, Hsize, Hoff, Hbase,
      Hentries. simpl.
    fold members. rewrite member_line_array_total. reflexivity.
  - apply layout_members_width.
  - intros before x y after Hitems Hover. split; [| lia].
    unfold members, field_layout, layout_members. fold items. rewrite Hitems.
    apply in_or_app. left. apply layout_loop_gap. lia.
  - intro out. apply print_register_atomic.
Qed.

Lemma inconsistent_layout_is_emitted_witness :
  (exists body,
     extract_typedef overlapping_register "TIM" (Some "0x40000000")
       = Ok (scalar_block "TIM" (Some "CR") "uint16_t" body "0x40000008")
     /\ List.length body = 3%nat)
  /\ total_width
       (field_layout 16 [(Some "A", (0, 7)); (Some "B", (4, 19))]) = 20
  /\ In (Reserved (-4))
        (field_layout 16 [(Some "A", (0, 7)); (Some "B", (4, 19))]).
Proof.
  pose proof (inconsistent_layout_is_emitted overlapping_register
                "TIM" (Some "0x40000000") (Some "CR") 16 1073741824 8
                [(Some "A", (0, 7)); (Some "B", (4, 19))]
                eq_refl eq_refl eq_refl eq_refl) as (H1 & _ & H3 & H4 & _).
  split; [| split].
  - destruct (H1 eq_refl eq_refl) as (body & Hb & _ & Hlen).
    { repeat constructor; simpl; discriminate. }
    exists body. split; [exact Hb | exact Hlen].
  - exact H3.
  - apply (H4 [] (Some "A", (0, 7)) (Some "B", (4, 19)) [] eq_refl).
    unfold start_bit, end_bit. simpl. lia.
Defined.

(** C2 as stated fails: field [B] of [overlapping_register] starts at bit 4,
    inside field [A] (bits 0 to 7), and ends at bit 19 of a 16-bit
    register, yet the run ends without an exception and the block with
    the reserved member of width -4 and 20 bits in all is on the output. *)
Lemma inconsistent_layout_counterexample :
  mapM field_entry (findall "field" overlapping_register)
    = Ok [(Some "A", (0, 7)); (Some "B", (4, 19))]
  /\ read_size_scalar overlapping_register = Ok 16
  /\ list_registers unreached_lookup overlapping_document []
     = (["// TIM"; "// ===";
         join newline
           ["typedef struct __attribute__((__packed__)) {";
            "    uint16_t A    : 8;";
            "    uint16_t : -4;";
            "    uint16_t B    : 16;";
            "} TIM_CRbits_t;";
            "#define TIM_CR (*(volatile uint16_t *)0x40000008)";
            "#define TIM_CRbits (*(volatile TIM_CRbits_t *)0x40000008)"];
         ""; ""],
        Ok tt).
Proof.
  split; [reflexivity |]. split; [reflexivity |]. vm_compute. reflexivity.
Qed.

(** ** The size literal *)

(** The scalar branch falls back to base 16 exactly when base 10 raises
    [ValueError]. *)
Lemma read_size_scalar_fallback register t :
  find_text "size" register = Ok (Some t) ->
  int_of_str 10 t = Raise ValueError ->
  read_size_scalar register = int_of_str 16 t.
Proof.
  intros Hfind Hdec. unfold read_size_scalar. rewrite Hfind. simpl.
  rewrite Hdec. reflexivity.
Qed.

(** The array branch does not. *)
Lemma read_size_array_no_fallback register t :
  find_text "size" register = Ok (Some t) ->
  int_of_str 10 t = Raise ValueError ->
  read_size_array register = Raise ValueError.
Proof.
  intros Hfind Hdec. unfold read_size_array. rewrite Hfind. simpl. exact Hdec.
Qed.

(** C6. The size literal [0x20]: the scalar branch reads it as 32 and
    emits a [uint32_t] register; the array branch, which has no fallback,
    ends in [ValueError]. *)
Theorem hex_size_only_scalar :
  read_size_scalar hex_size_scalar_register = Ok 32
  /\ extract_typedef hex_size_scalar_register "P" (Some "0x40000000")
     = Ok (join newline
             ["typedef struct __attribute__((__packed__)) {";
              "    uint32_t : 32;";
              "} P_BUFbits_t;";
              "#define P_BUF (*(volatile uint32_t *)0x40000020)";
              "#define P_BUFbits (*(volatile P_BUFbits_t *)0x40000020)"])
  /\ read_size_array hex_size_array_register = Raise ValueError
  /\ extract_typedef hex_size_array_register "P" (Some "0x40000000")
     = Raise ValueError.
Proof.
  split; [reflexivity |]. split; [vm_compute; reflexivity |].
  split; reflexivity.
Qed.

(** ** The [dim] values *)

Lemma Element_nested_ind (P : Element -> Prop) :
  (forall t a x tl cs, Forall P cs -> P (mkElement t a x tl cs)) ->
  forall e, P e.
Proof.
  intro H. fix IH 1. intros [t a x tl cs]. apply H.
  induction cs as [| c cs IHcs]; constructor; [apply IH | exact IHcs].
Qed.

Lemma tag_blank_dim e : tag (blank_dim e) = tag e.
Proof. destruct e; reflexivity. Qed.

Lemma children_blank_dim e : children (blank_dim e) = map blank_dim (children e).
Proof. destruct e; reflexivity. Qed.

Lemma text_blank_dim e :
  is_dim_tag (tag e) = false -> text (blank_dim e) = text e.
Proof. destruct e; simpl; intros ->; reflexivity. Qed.

Lemma find_map_blank_dim t cs :
  List.find (fun c => String.eqb (tag c) t) (map blank_dim cs) =
  option_map blank_dim (List.find (fun c => String.eqb (tag c) t) cs).
Proof.
  induction cs as [| c cs IH]; simpl; [reflexivity |].
  rewrite tag_blank_dim. destruct (String.eqb (tag c) t); [reflexivity | exact IH].
Qed.

Lemma find_blank_dim t e : find t (blank_dim e) = option_map blank_dim (find t e).
Proof. unfold find. rewrite children_blank_dim. apply find_map_blank_dim. Qed.

Lemma find_text_blank_dim t e :
  is_dim_tag t = false -> find_text t (blank_dim e) = find_text t e.
Proof.
  intro Ht. unfold find_text. rewrite find_blank_dim.
  destruct (find t e) as [c |] eqn:E; simpl; [| reflexivity].
  unfold find in E. apply find_some in E. destruct E as (_ & E).
  apply String.eqb_eq in E. rewrite text_blank_dim; [reflexivity |].
  rewrite E. exact Ht.
Qed.

Lemma iter_children e : iter e = e :: iter_all (children e).
Proof.
  destruct e as [t a x tl cs]. reflexivity.
Qed.

Lemma iter_blank_dim e : iter (blank_dim e) = map blank_dim (iter e).
Proof.
  induction e as [t a x tl cs IH] using Element_nested_ind.
  rewrite !iter_children. simpl. f_equal.
  induction IH as [| c cs Hc _ IHcs]; simpl; [reflexivity |].
  rewrite map_app, Hc, IHcs. reflexivity.
Qed.

Lemma iter_all_blank_dim cs :
  iter_all (map blank_dim cs) = map blank_dim (iter_all cs).
Proof.
  induction cs as [| c cs IH]; simpl; [reflexivity |].
  rewrite map_app, iter_blank_dim, IH. reflexivity.
Qed.

Lemma filter_tag_blank_dim t l :
  filter (fun d => String.eqb (tag d) t) (map blank_dim l) =
  map blank_dim (filter (fun d => String.eqb (tag d) t) l).
Proof.
  induction l as [| c l IH]; simpl; [reflexivity |].
  rewrite tag_blank_dim. destruct (String.eqb (tag c) t); simpl; rewrite IH;
    reflexivity.
Qed.

Lemma findall_blank_dim t e :
  findall t (blank_dim e) = map blank_dim (findall t e).
Proof.
  unfold findall. rewrite children_blank_dim, iter_all_blank_dim.
  apply filter_tag_blank_dim.
Qed.

Lemma field_entry_blank_dim f : field_entry (blank_dim f) = field_entry f.
Proof.
  unfold field_entry. rewrite !find_text_blank_dim by reflexivity. reflexivity.
Qed.

Lemma read_fields_blank_dim register :
  mapM field_entry (findall "field" (blank_dim register)) =
  mapM field_entry (findall "field" register).
Proof.
  rewrite findall_blank_dim.
  induction (findall "field" register) as [| f fs IH]; simpl; [reflexivity |].
  rewrite field_entry_blank_dim, IH. reflexivity.
Qed.

Lemma extract_typedef_array_rest register dim_element pn pb rn :
  extract_typedef_array register dim_element pn pb rn =
  (dim <- py_int 10 (text dim_element) ;;
   dim_increment <- (t <- find_text "dimIncrement" register ;; py_int 0 t) ;;
   dim_index <- find_text "dimIndex" register ;;
   array_rest register pn pb rn).
Proof. apply extract_typedef_array_layout. Qed.

Lemma array_rest_blank_dim register pn pb rn :
  array_rest (blank_dim register) pn pb rn = array_rest register pn pb rn.
Proof.
  unfold array_rest, read_size_array, read_address_offset.
  rewrite !find_text_blank_dim by reflexivity.
  rewrite read_fields_blank_dim. reflexivity.
Qed.

Lemma find_blank_dim_eq t r1 r2 :
  blank_dim r1 = blank_dim r2 ->
  option_map blank_dim (find t r1) = option_map blank_dim (find t r2).
Proof. intro H. rewrite <- !find_blank_dim, H. reflexivity. Qed.

Lemma dims_numeric_extract register pn pb :
  dims_numeric register ->
  extract_typedef register pn pb =
  (rn <- find_text "name" register ;;
   dim_index <- find_text "dimIndex" register ;;
   array_rest register pn pb rn).
Proof.
  intros (d & dim & inc & Hd & Hdim & Hinc).
  unfold extract_typedef. rewrite Hd.
  destruct (find_text "name" register) as [rn | e]; simpl; [| reflexivity].
  rewrite extract_typedef_array_rest, Hdim, Hinc. reflexivity.
Qed.

Lemma extract_Ok_dims_numeric register pn pb text :
  find "dim" register <> None ->
  extract_typedef register pn pb = Ok text ->
  dims_numeric register.
Proof.
  intros Hdim H. unfold extract_typedef in H.
  apply bind_Ok_inv in H. destruct H as (rn & _ & H).
  destruct (find "dim" register) as [d |] eqn:Hd; [| contradiction Hdim; reflexivity].
  rewrite extract_typedef_array_rest in H.
  apply bind_Ok_inv in H. destruct H as (dim & H1 & H).
  apply bind_Ok_inv in H. destruct H as (inc & H2 & _).
  exists d, dim, inc. repeat split; assumption.
Qed.

(** C10. Two array registers that differ at most in the texts of their
    [dim], [dimIncrement] and [dimIndex] elements: whenever both are
    emitted, the two texts are the same string; and as long as [dim] and
    [dimIncrement] hold integers in both, [extract_typedef] gives the same
    result for both, be it a text or an exception. *)
Theorem array_text_ignores_dim r1 r2 pn pb :
  blank_dim r1 = blank_dim r2 ->
  find "dim" r1 <> None ->
  (forall t1 t2,
     extract_typedef r1 pn pb = Ok t1 ->
     extract_typedef r2 pn pb = Ok t2 ->
     t1 = t2)
  /\ (dims_numeric r1 -> dims_numeric r2 ->
      extract_typedef r1 pn pb = extract_typedef r2 pn pb).
Proof.
  intros Hb Hdim1.
  assert (Hdim2 : find "dim" r2 <> None).
  { pose proof (find_blank_dim_eq "dim" r1 r2 Hb) as E.
    destruct (find "dim" r1); [| contradiction Hdim1; reflexivity].
    destruct (find "dim" r2); [discriminate | discriminate E]. }
  assert (Hstrong : dims_numeric r1 -> dims_numeric r2 ->
                    extract_typedef r1 pn pb = extract_typedef r2 pn pb).
  { intros Hn1 Hn2. rewrite !dims_numeric_extract by assumption.
    assert (Hname : find_text "name" r1 = find_text "name" r2).
    { rewrite <- (find_text_blank_dim "name" r1), <- (find_text_blank_dim "name" r2)
        by reflexivity. rewrite Hb. reflexivity. }
    rewrite Hname. destruct (find_text "name" r2) as [rn | e]; simpl; [| reflexivity].
    assert (Hrest : array_rest r1 pn pb rn = array_rest r2 pn pb rn).
    { rewrite <- (array_rest_blank_dim r1), <- (array_rest_blank_dim r2), Hb.
      reflexivity. }
    pose proof (find_blank_dim_eq "dimIndex" r1 r2 Hb) as E.
    unfold find_text.
    destruct (find "dimIndex" r1), (find "dimIndex" r2); simpl in *;
      try discriminate E; [exact Hrest | reflexivity]. }
  split; [| exact Hstrong].
  intros t1 t2 H1 H2.
  pose proof (extract_Ok_dims_numeric _ _ _ _ Hdim1 H1) as Hn1.
  pose proof (extract_Ok_dims_numeric _ _ _ _ Hdim2 H2) as Hn2.
  rewrite (Hstrong Hn1 Hn2), H2 in H1. injection H1 as <-. reflexivity.
Qed.

Lemma array_text_ignores_dim_witness :
  extract_typedef nvic_ip "NVIC" (Some "0xE000E100")
  = extract_typedef nvic_ip_other_dim "NVIC" (Some "0xE000E100")
  /\ exists t, extract_typedef nvic_ip_other_dim "NVIC" (Some "0xE000E100") = Ok t.
Proof.
  split.
  - apply (array_text_ignores_dim nvic_ip nvic_ip_other_dim "NVIC"
             (Some "0xE000E100") eq_refl).
    + discriminate.
    + exists (leaf "dim" "32"), 32, 1. repeat split; reflexivity.
    + exists (leaf "dim" "4"), 4, 4. repeat split; reflexivity.
  - eexists. vm_compute. reflexivity.
Defined.

(** ** Derived peripherals *)

(** A register emitted under one peripheral is emitted under any other
    whose base address is a hexadecimal literal, with the same branch, register
    name, storage type, struct body and offset. *)
Lemma extract_typedef_other_peripheral register pn pb text :
  extract_typedef register pn pb = Ok text ->
  exists is_array rn register_type body offset base,
    py_int 16 pb = Ok base
    /\ text = register_block is_array pn rn register_type body (hex (base + offset))
    /\ forall pn' pb' base',
         py_int 16 pb' = Ok base' ->
         extract_typedef register pn' pb'
           = Ok (register_block is_array pn' rn register_type body
                   (hex (base' + offset))).
Proof.
  intro H. unfold extract_typedef in H.
  apply bind_Ok_inv in H. destruct H as (rn & Hrn & H).
  destruct (find "dim" register) as [d |] eqn:Hd.
  - rewrite extract_typedef_array_layout in H.
    apply bind_Ok_inv in H. destruct H as (dim & Hdim & H).
    apply bind_Ok_inv in H. destruct H as (inc & Hinc & H).
    apply bind_Ok_inv in H. destruct H as (idx & Hidx & H).
    apply bind_Ok_inv in H. destruct H as (size & Hsize & H).
    apply bind_Ok_inv in H. destruct H as (offset & Hoff & H).
    apply bind_Ok_inv in H. destruct H as (base & Hbase & H).
    apply bind_Ok_inv in H. destruct H as (entries & Hentries & H).
    apply bind_Ok_inv in H. destruct H as (body & Hbody & H).
    injection H as <-.
    exists true, rn, (get_register_type size), body, offset, base.
    split; [exact Hbase |]. split; [reflexivity |].
    intros pn' pb' base' Hbase'. unfold extract_typedef. rewrite Hrn, Hd. simpl.
    rewrite extract_typedef_array_layout, Hdim, Hinc, Hidx, Hsize, Hoff, Hbase',
      Hentries. simpl. rewrite Hbody. reflexivity.
  - rewrite extract_typedef_scalar_layout in H.
    apply bind_Ok_inv in H. destruct H as (size & Hsize & H).
    apply bind_Ok_inv in H. destruct H as (base & Hbase & H).
    apply bind_Ok_inv in H. destruct H as (offset & Hoff & H).
    apply bind_Ok_inv in H. destruct H as (entries & Hentries & H).
    apply bind_Ok_inv in H. destruct H as (body & Hbody & H).
    injection H as <-.
    exists false, rn, (get_register_type size), body, offset, base.
    split; [exact Hbase |]. split; [reflexivity |].
    intros pn' pb' base' Hbase'. unfold extract_typedef. rewrite Hrn, Hd. simpl.
    rewrite extract_typedef_scalar_layout, Hsize, Hbase', Hoff, Hentries. simpl.
    rewrite Hbody. reflexivity.
Qed.

(** The registers emitted under one peripheral are emitted, one for one,
    under another whose base address is a hexadecimal literal. *)
Lemma registers_other_peripheral registers n1 b1 n2 b2 base2 texts1 :
  mapM (fun r => extract_typedef r n1 b1) registers = Ok texts1 ->
  py_int 16 b2 = Ok base2 ->
  exists texts2,
    mapM (fun r => extract_typedef r n2 b2) registers = Ok texts2
    /\ forall base1, py_int 16 b1 = Ok base1 ->
         Forall2 (same_register n1 base1 n2 base2) texts1 texts2.
Proof.
  intros H1 H2. revert texts1 H1.
  induction registers as [| r rs IH]; intros texts1 H1; simpl in H1.
  - injection H1 as <-. exists []. split; [reflexivity | constructor].
  - apply bind_Ok_inv in H1. destruct H1 as (t1 & Ht1 & H1).
    apply bind_Ok_inv in H1. destruct H1 as (ts1 & Hts1 & H1). injection H1 as <-.
    destruct (IH _ Hts1) as (ts2 & Hts2 & Hall).
    destruct (extract_typedef_other_peripheral _ _ _ _ Ht1)
      as (is_array & rn & ty & body & offset & base1 & Hb1 & -> & Hother).
    exists (register_block is_array n2 rn ty body (hex (base2 + offset)) :: ts2).
    split.
    + simpl. rewrite (Hother n2 b2 base2 H2), Hts2. reflexivity.
    + intros base1' Hb1'. constructor; [| apply Hall, Hb1'].
      assert (base1' = base1) as -> by congruence.
      exists is_array, rn, ty, body, offset. split; reflexivity.
Qed.

Lemma print_registers_emitted pn pb registers out texts :
  mapM (fun r => extract_typedef r pn pb) registers = Ok texts ->
  for_each registers (print_register pn pb) out
    = ((out ++ printed_blocks texts)%list, Ok tt).
Proof.
  revert out texts.
  induction registers as [| r rs IH]; intros o texts H; simpl in H.
  - injection H as <-. simpl. rewrite app_nil_r. reflexivity.
  - apply bind_Ok_inv in H. destruct H as (t & Ht & H).
    apply bind_Ok_inv in H. destruct H as (ts & Hts & H). injection H as <-.
    cbn [for_each]. unfold io_bind. rewrite print_register_atomic, Ht.
    rewrite (IH _ _ Hts). unfold printed_blocks. simpl.
    rewrite <- app_assoc. reflexivity.
Qed.

Lemma print_registers_stopped pn pb before r after out texts e :
  mapM (fun r => extract_typedef r pn pb) before = Ok texts ->
  extract_typedef r pn pb = Raise e ->
  for_each (before ++ r :: after) (print_register pn pb) out
    = ((out ++ printed_blocks texts)%list, Raise e).
Proof.
  intros Hb Hr.
  rewrite for_each_app, (print_registers_emitted _ _ _ _ _ Hb). cbn [for_each].
  unfold io_bind. rewrite print_register_atomic, Hr. reflexivity.
Qed.

(** A peripheral with no [derivedFrom], or an empty one, supplies its
    own registers. *)
Lemma list_peripheral_own quoted root p n b out :
  find_text "name" p = Ok (Some n) ->
  find_text "baseAddress" p = Ok b ->
  get "derivedFrom" p = None \/ get "derivedFrom" p = Some "" ->
  list_peripheral quoted root p out =
  (for_each (findall "register" p) (print_register n b) ;;; print "")
    (out ++ banner n)%list.
Proof.
  intros Hn Hb Hg.
  unfold list_peripheral, resolve_derived, io_bind, lift, print, io_ret.
  rewrite Hn, Hb. destruct Hg as [Hg | Hg]; rewrite Hg; simpl; unfold banner;
    rewrite <- !app_assoc; reflexivity.
Qed.

(** A derived peripheral gets its registers from what the lookup returns. *)
Lemma list_peripheral_looked_up quoted root p n b d out :
  find_text "name" p = Ok (Some n) ->
  find_text "baseAddress" p = Ok b ->
  get "derivedFrom" p = Some d ->
  d <> "" ->
  list_peripheral quoted root p out =
  match find_peripheral_named quoted d root with
  | Ok source =>
      (print_registers source n b ;;; print "")
        (out ++ banner n ++ [derived_note n d])%list
  | Raise e => ((out ++ banner n ++ [derived_note n d])%list, Raise e)
  end.
Proof.
  intros Hn Hb Hg Hd.
  unfold list_peripheral, resolve_derived, io_bind, lift, print.
  rewrite Hn, Hb, Hg. simpl.
  destruct d as [| c d']; [contradiction Hd; reflexivity |].
  unfold banner, derived_note. rewrite <- !app_assoc. simpl.
  destruct (find_peripheral_named quoted (String c d') root); reflexivity.
Qed.

Lemma find_first_match {A} (f : A -> bool) before p after :
  Forall (fun q => f q = false) before ->
  f p = true ->
  List.find f (before ++ p :: after) = Some p.
Proof.
  intros Hb Hp. induction Hb as [| q before Hq _ IH]; simpl.
  - rewrite Hp. reflexivity.
  - rewrite Hq. exact IH.
Qed.

Lemma has_name_true d p :
  has_name d p = true <->
  exists c, In c (findall_children "name" p) /\ itertext c = d.
Proof.
  unfold has_name. rewrite existsb_exists. split; intros (c & Hc & E); exists c;
    (split; [exact Hc | apply String.eqb_eq, E]).
Qed.

Lemma has_name_false d p :
  has_name d p = false <->
  forall c, In c (findall_children "name" p) -> itertext c <> d.
Proof.
  rewrite <- not_true_iff_false, has_name_true. split.
  - intros H c Hc E. apply H. exists c. split; assumption.
  - intros H (c & Hc & E). exact (H c Hc E).
Qed.

(** A run reads the [QuotedLookup] only at a [derivedFrom] value with an
    apostrophe that something other than letters and digits follows. *)
Lemma find_peripheral_named_unreached q1 q2 d root :
  reaches_lookup d = false ->
  find_peripheral_named q1 d root = find_peripheral_named q2 d root.
Proof.
  unfold reaches_lookup, find_peripheral_named. intro H.
  destruct (has_quote d); [| reflexivity].
  destruct (forallb is_alnum (list_ascii_of_string (after_quote d)));
    [reflexivity | discriminate H].
Qed.

Lemma list_peripheral_unreached q1 q2 root p out :
  (forall d, get "derivedFrom" p = Some d -> reaches_lookup d = false) ->
  list_peripheral q1 root p out = list_peripheral q2 root p out.
Proof.
  intro H. unfold list_peripheral, resolve_derived.
  destruct (get "derivedFrom" p) as [[| c d] |]; try reflexivity.
  rewrite (find_peripheral_named_unreached q1 q2 _ root (H _ eq_refl)).
  reflexivity.
Qed.

Lemma list_registers_unreached q1 q2 root out :
  (forall p d, In p (findall "peripheral" root) ->
     get "derivedFrom" p = Some d -> reaches_lookup d = false) ->
  list_registers q1 root out = list_registers q2 root out.
Proof.
  unfold list_registers. revert out.
  induction (findall "peripheral" root) as [| p l IH]; intros out H;
    [reflexivity |].
  cbn [for_each]. unfold io_bind.
  rewrite (list_peripheral_unreached q1 q2 root p out (fun d => H p d (or_introl eq_refl))).
  destruct (list_peripheral q2 root p out) as [out' [[] | e]]; [| reflexivity].
  apply IH. intros q d Hq. apply H. right. exact Hq.
Qed.

(** C5, as the code has it.  Let P2 have the name [n2], a hexadecimal
    base address [b2] and [derivedFrom = d], where [d] is not empty and
    holds no apostrophe.  Let P1 be the first peripheral of the document
    that has a [name] child with inner text [d], let P1 have the name [n1]
    and the base address [b1] and declare no derivation itself, and let
    each register below P1 be emitted under P1, as [texts1].  Then the run
    over P1 prints its banner, each of [texts1] followed by an empty line,
    and an empty line; the run over P2 prints its banner, the derivation
    note, one text for each register of P1, in the same order, each
    followed by an empty line, and an empty line; and each text printed
    under P2 is the text printed under P1 with the same branch, register
    name, storage type, struct body and offset, only the peripheral name
    inside the symbols and the base of the address being P2's. *)
Theorem derived_peripheral_registers (quoted : QuotedLookup)
    (root p1 p2 : Element) (before after : list Element)
    (n1 n2 d : string) (b1 b2 : pytext) (base2 : Z) (texts1 : list string) :
  find_text "name" p2 = Ok (Some n2) ->
  find_text "baseAddress" p2 = Ok b2 ->
  py_int 16 b2 = Ok base2 ->
  get "derivedFrom" p2 = Some d ->
  d <> "" ->
  has_quote d = false ->
  findall "peripheral" root = (before ++ p1 :: after)%list ->
  Forall (fun q => has_name d q = false) before ->
  has_name d p1 = true ->
  find_text "name" p1 = Ok (Some n1) ->
  find_text "baseAddress" p1 = Ok b1 ->
  get "derivedFrom" p1 = None \/ get "derivedFrom" p1 = Some "" ->
  mapM (fun r => extract_typedef r n1 b1) (findall "register" p1) = Ok texts1 ->
  exists texts2,
    (forall out,
       list_peripheral quoted root p1 out
         = ((out ++ banner n1 ++ printed_blocks texts1 ++ [""])%list, Ok tt))
    /\ (forall out,
          list_peripheral quoted root p2 out
            = ((out ++ banner n2 ++ [derived_note n2 d]
                    ++ printed_blocks texts2 ++ [""])%list, Ok tt))
    /\ mapM (fun r => extract_typedef r n2 b2) (findall "register" p1) = Ok texts2
    /\ (forall base1, py_int 16 b1 = Ok base1 ->
          Forall2 (same_register n1 base1 n2 base2) texts1 texts2).
Proof.
  intros Hn2 Hb2 Hbase2 Hg2 Hd Hq Hall Hbefore Hp1 Hn1 Hb1 Hg1 Htexts1.
  destruct (registers_other_peripheral _ n1 b1 n2 b2 base2 _ Htexts1 Hbase2)
    as (texts2 & Htexts2 & Hsame).
  exists texts2. split; [| split; [| split; [exact Htexts2 | exact Hsame]]].
  - intro out. rewrite (list_peripheral_own _ _ _ _ _ _ Hn1 Hb1 Hg1).
    unfold io_bind. rewrite (print_registers_emitted _ _ _ _ _ Htexts1).
    unfold print. rewrite <- !app_assoc. reflexivity.
  - intro out. rewrite (list_peripheral_looked_up _ _ _ _ _ _ _ Hn2 Hb2 Hg2 Hd).
    unfold find_peripheral_named. rewrite Hq, Hall.
    rewrite (find_first_match _ _ _ _ Hbefore Hp1).
    unfold print_registers, io_bind.
    rewrite (print_registers_emitted _ _ _ _ _ Htexts2).
    unfold print. rewrite <- !app_assoc. reflexivity.
Qed.

Lemma derived_peripheral_registers_witness :
  list_peripheral unreached_lookup uart_document uart0 []
    = (["// UART0"; "// =====";
        register_block false "UART0" (Some "SR") "uint8_t"
          ["    uint8_t TXE  : 1;"; "    uint8_t : 4;";
           "    uint8_t RXNE : 1;"; "    uint8_t : 2;"]
          "0x40001004";
        ""; ""], Ok tt)
  /\ list_peripheral unreached_lookup uart_document uart1 []
    = (["// UART1"; "// ====="; "// UART1 is derived from UART0";
        register_block false "UART1" (Some "SR") "uint8_t"
          ["    uint8_t TXE  : 1;"; "    uint8_t : 4;";
           "    uint8_t RXNE : 1;"; "    uint8_t : 2;"]
          "0x40002004";
        ""; ""], Ok tt)
  /\ Forall2 (same_register "UART0" 1073745920 "UART1" 1073750016)
       [register_block false "UART0" (Some "SR") "uint8_t"
          ["    uint8_t TXE  : 1;"; "    uint8_t : 4;";
           "    uint8_t RXNE : 1;"; "    uint8_t : 2;"]
          "0x40001004"]
       [register_block false "UART1" (Some "SR") "uint8_t"
          ["    uint8_t TXE  : 1;"; "    uint8_t : 4;";
           "    uint8_t RXNE : 1;"; "    uint8_t : 2;"]
          "0x40002004"].
Proof.
  destruct (derived_peripheral_registers unreached_lookup uart_document uart0 uart1
              [] [uart1] "UART0" "UART1" "UART0"
              (Some "0x40001000") (Some "0x40002000") 1073750016
              [register_block false "UART0" (Some "SR") "uint8_t"
                 ["    uint8_t TXE  : 1;"; "    uint8_t : 4;";
                  "    uint8_t RXNE : 1;"; "    uint8_t : 2;"]
                 "0x40001004"]
              eq_refl eq_refl eq_refl eq_refl ltac:(discriminate) eq_refl
              eq_refl (Forall_nil _) eq_refl eq_refl eq_refl
              (or_introl eq_refl) eq_refl)
    as (texts2 & H1 & H2 & H3 & H4).
  split; [exact (H1 []) |].
  vm_compute in H3. injection H3 as <-.
  split; [rewrite (H2 []); reflexivity | exact (H4 _ eq_refl)].
Defined.

(** C5 as stated fails in two ways.  In [chain_document] UART2 is derived
    from UART1, which exists and is itself derived from UART0: under UART1
    the register [SR] of UART0 is emitted, under UART2 the register [DATA]
    that UART1 declares.  In [quoted_document] CLONE is derived from
    [O'Neil], which exists: the lookup raises [SyntaxError] and no register
    is emitted under CLONE. *)
Lemma derived_peripheral_counterexample :
  In uart1_with_register (findall "peripheral" chain_document)
  /\ has_name "UART1" uart1_with_register = true
  /\ get "derivedFrom" uart2 = Some "UART1"
  /\ list_peripheral unreached_lookup chain_document uart1_with_register []
     = (["// UART1"; "// ====="; "// UART1 is derived from UART0";
         register_block false "UART1" (Some "SR") "uint8_t"
           ["    uint8_t TXE  : 1;"; "    uint8_t : 4;";
            "    uint8_t RXNE : 1;"; "    uint8_t : 2;"]
           "0x40002004";
         ""; ""], Ok tt)
  /\ list_peripheral unreached_lookup chain_document uart2 []
     = (["// UART2"; "// ====="; "// UART2 is derived from UART1";
         register_block false "UART2" (Some "DATA") "uint32_t"
           ["    uint32_t : 32;"]
           "0x40003004";
         ""; ""], Ok tt)
  /\ In oneil (findall "peripheral" quoted_document)
  /\ has_name "O'Neil" oneil = true
  /\ get "derivedFrom" oneil_clone = Some "O'Neil"
  /\ list_peripheral unreached_lookup quoted_document oneil_clone []
     = (["// CLONE"; "// ====="; "// CLONE is derived from O'Neil"],
        Raise SyntaxError).
Proof.
  repeat split; try (vm_compute; reflexivity).
  - right. left. reflexivity.
  - left. reflexivity.
Qed.

(** ** The text primitives on sample literals *)

Example int_dec : int_of_str 10 " 32 " = Ok 32. Proof. reflexivity. Qed.
Example int_dec_hex_text : int_of_str 10 "0x20" = Raise ValueError. Proof. reflexivity. Qed.
Example int_hex_prefixed : int_of_str 16 "0x40000000" = Ok 1073741824. Proof. reflexivity. Qed.
Example int_hex_bare : int_of_str 16 "300" = Ok 768. Proof. reflexivity. Qed.
Example int_auto_hex : int_of_str 0 "0x1" = Ok 1. Proof. reflexivity. Qed.
Example int_auto_old_octal : int_of_str 0 "010" = Raise ValueError. Proof. reflexivity. Qed.
Example int_underscore : int_of_str 10 "1_000" = Ok 1000. Proof. reflexivity. Qed.
Example int_underscores : int_of_str 10 "1__0" = Raise ValueError. Proof. reflexivity. Qed.
Example int_negative : int_of_str 10 "-7" = Ok (-7). Proof. reflexivity. Qed.
Example int_empty : int_of_str 10 "" = Raise ValueError. Proof. reflexivity. Qed.
Example hex_addr : hex 3758154752 = "0xe000e400". Proof. reflexivity. Qed.
Example hex_zero : hex 0 = "0x0". Proof. reflexivity. Qed.
Example hex_neg : hex (-255) = "-0xff". Proof. reflexivity. Qed.
Example str_zero : str_of_int 0 = "0". Proof. reflexivity. Qed.
Example str_neg : str_of_int (-5) = "-5". Proof. reflexivity. Qed.

(** * Further properties *)

(** ** Literals written and read *)

Lemma scan_decimal_pos d : forall (acc : positive) k,
  scan_digits 10 (DecimalString.NilEmpty.string_of_uint d) (Zpos acc) false k =
  Some (Zpos (Pos.of_uint_acc d acc), (k + Decimal.nb_digits d)%nat, "").
Proof.
  induction d; intros acc k;
    cbn [DecimalString.NilEmpty.string_of_uint scan_digits Pos.of_uint_acc
         Decimal.nb_digits];
    try (rewrite Nat.add_0_r; reflexivity);
    eval_char; cbn [Z.ltb Z.compare Pos.compare Pos.compare_cont];
    rewrite <- Nat.add_succ_comm;
    match goal with
    | |- scan_digits 10 _ ?a false _ = Some (Zpos (Pos.of_uint_acc _ ?p), _, _) =>
        replace a with (Zpos p) by lia
    end; apply IHd.
Qed.

Lemma scan_decimal_zero d : forall k,
  scan_digits 10 (DecimalString.NilEmpty.string_of_uint d) 0 false k =
  Some (Z.of_N (Pos.of_uint d), (k + Decimal.nb_digits d)%nat, "").
Proof.
  induction d; intro k;
    cbn [DecimalString.NilEmpty.string_of_uint scan_digits Pos.of_uint
         Decimal.nb_digits Z.of_N];
    try (rewrite Nat.add_0_r; reflexivity);
    eval_char; cbn [Z.ltb Z.compare Pos.compare Pos.compare_cont Z.mul Z.add];
    rewrite <- Nat.add_succ_comm;
    first [ apply IHd | apply scan_decimal_pos ].
Qed.

Lemma scan_hex_pos d : forall (acc : positive) k,
  scan_digits 16 (HexadecimalString.NilEmpty.string_of_uint d) (Zpos acc) false k =
  Some (Zpos (Pos.of_hex_uint_acc d acc), (k + Hexadecimal.nb_digits d)%nat, "").
Proof.
  induction d; intros acc k;
    cbn [HexadecimalString.NilEmpty.string_of_uint scan_digits Pos.of_hex_uint_acc
         Hexadecimal.nb_digits];
    try (rewrite Nat.add_0_r; reflexivity);
    eval_char; cbn [Z.ltb Z.compare Pos.compare Pos.compare_cont];
    rewrite <- Nat.add_succ_comm;
    match goal with
    | |- scan_digits 16 _ ?a false _ = Some (Zpos (Pos.of_hex_uint_acc _ ?p), _, _) =>
        replace a with (Zpos p) by lia
    end; apply IHd.
Qed.

Lemma scan_hex_zero d : forall k,
  scan_digits 16 (HexadecimalString.NilEmpty.string_of_uint d) 0 false k =
  Some (Z.of_N (Pos.of_hex_uint d), (k + Hexadecimal.nb_digits d)%nat, "").
Proof.
  induction d; intro k;
    cbn [HexadecimalString.NilEmpty.string_of_uint scan_digits Pos.of_hex_uint
         Hexadecimal.nb_digits Z.of_N];
    try (rewrite Nat.add_0_r; reflexivity);
    eval_char; cbn [Z.ltb Z.compare Pos.compare Pos.compare_cont Z.mul Z.add];
    rewrite <- Nat.add_succ_comm;
    first [ apply IHd | apply scan_hex_pos ].
Qed.

Lemma skip_prefix_10 s : skip_prefix 10 s = s.
Proof.
  destruct s as [| a [| c rest]]; try reflexivity;
    destruct a as [[] [] [] [] [] [] [] []]; reflexivity.
Qed.

Lemma int_of_decimal_uint (negative : bool) d :
  d <> Decimal.Nil ->
  int_of_str 10 ((if negative then "-" else "")
                 ++ DecimalString.NilEmpty.string_of_uint d)
    = Ok ((if negative then -1 else 1) * Z.of_N (Pos.of_uint d)).
Proof.
  intro Hd. destruct d; [contradiction Hd; reflexivity | ..].
  all: destruct negative.
  all: unfold int_of_str.
  all: cbn [append DecimalString.NilEmpty.string_of_uint skip_spaces].
  all: eval_space; cbv beta iota zeta.
  all: change (10 =? 0) with false; cbv beta iota zeta.
  all: rewrite skip_prefix_10; cbv beta iota zeta.
  all: match goal with
       | |- context [Pos.of_uint ?x] =>
           match goal with
           | |- context [scan_digits 10 ?str _ _ _] =>
               change str with (DecimalString.NilEmpty.string_of_uint x)
           end
       end.
  all: rewrite scan_decimal_zero; cbn [Nat.add Decimal.nb_digits andb skip_spaces].
  all: reflexivity.
Qed.

Lemma int_of_hex_uint (negative : bool) d :
  d <> Hexadecimal.Nil ->
  int_of_str 16 ((if negative then "-0x" else "0x")
                 ++ HexadecimalString.NilEmpty.string_of_uint d)
    = Ok ((if negative then -1 else 1) * Z.of_N (Pos.of_hex_uint d)).
Proof.
  intro Hd. destruct d; [contradiction Hd; reflexivity | ..].
  all: destruct negative.
  all: unfold int_of_str.
  all: cbn [append HexadecimalString.NilEmpty.string_of_uint skip_spaces].
  all: eval_space; cbv beta iota zeta.
  all: change (16 =? 0) with false; cbv beta iota zeta.
  all: cbn [skip_prefix]; eval_prefix; cbv beta iota zeta.
  all: match goal with
       | |- context [Pos.of_hex_uint ?x] =>
           match goal with
           | |- context [scan_digits 16 ?str _ _ _] =>
               change str with (HexadecimalString.NilEmpty.string_of_uint x)
           end
       end.
  all: rewrite scan_hex_zero; cbn [Nat.add Hexadecimal.nb_digits andb skip_spaces].
  all: reflexivity.
Qed.

Lemma Pos_to_uint_not_Nil p : Pos.to_uint p <> Decimal.Nil.
Proof.
  intro H. pose proof (DecimalPos.Unsigned.of_to p) as E. rewrite H in E.
  discriminate E.
Qed.

Lemma Pos_to_hex_uint_not_Nil p : Pos.to_hex_uint p <> Hexadecimal.Nil.
Proof.
  intro H. pose proof (HexadecimalPos.Unsigned.of_to p) as E. rewrite H in E.
  discriminate E.
Qed.

Lemma decimal_string_nonnil d :
  d <> Decimal.Nil ->
  DecimalString.NilZero.string_of_uint d = DecimalString.NilEmpty.string_of_uint d.
Proof. destruct d; [intro H; contradiction H |..]; reflexivity. Qed.

Lemma hex_string_nonnil d :
  d <> Hexadecimal.Nil ->
  HexadecimalString.NilZero.string_of_uint d
    = HexadecimalString.NilEmpty.string_of_uint d.
Proof. destruct d; [intro H; contradiction H |..]; reflexivity. Qed.

Lemma int_of_str_of_int (n : Z) : int_of_str 10 (str_of_int n) = Ok n.
Proof.
  unfold str_of_int. destruct n as [| p | p]; [reflexivity | |];
    cbn [Z.to_int DecimalString.NilZero.string_of_int];
    rewrite (decimal_string_nonnil _ (Pos_to_uint_not_Nil p)).
  - pose proof (int_of_decimal_uint false _ (Pos_to_uint_not_Nil p)) as H.
    cbn [append] in H. rewrite H, DecimalPos.Unsigned.of_to. reflexivity.
  - pose proof (int_of_decimal_uint true _ (Pos_to_uint_not_Nil p)) as H.
    cbn [append] in H. rewrite H, DecimalPos.Unsigned.of_to. reflexivity.
Qed.

Lemma int_of_hex (n : Z) : int_of_str 16 (hex n) = Ok n.
Proof.
  unfold hex. destruct n as [| p | p]; [reflexivity | |];
    cbn [Z.ltb Z.compare Z.abs_N N.to_hex_uint];
    rewrite (hex_string_nonnil _ (Pos_to_hex_uint_not_Nil p)).
  - rewrite (int_of_hex_uint false _ (Pos_to_hex_uint_not_Nil p)).
    rewrite HexadecimalPos.Unsigned.of_to. reflexivity.
  - rewrite (int_of_hex_uint true _ (Pos_to_hex_uint_not_Nil p)).
    rewrite HexadecimalPos.Unsigned.of_to. reflexivity.
Qed.

(** X1. Reading back in base 10 what an f-string writes for an integer
    gives that integer: every width written into a struct body is a
    decimal literal of [int]. *)
Theorem decimal_round_trip (n : Z) : py_int 10 (Some (str_of_int n)) = Ok n.
Proof. apply int_of_str_of_int. Qed.

(** X2. Reading back in base 16 what [hex] writes gives the integer: the
    address in a macro is a literal the program itself accepts as a base
    address or an address offset. *)
Theorem hex_round_trip (n : Z) : py_int 16 (Some (hex n)) = Ok n.
Proof. apply int_of_hex. Qed.

Lemma underscore_test {A : Type} (s : string) (R K : A) :
  match s with
  | String "_" _ => R
  | _ => K
  end = if starts_with_underscore s then R else K.
Proof. destruct s as [| c s]; [reflexivity |]. all_chars c; reflexivity. Qed.

Lemma int_of_str_tail base s :
  int_of_str base s =
  int_tail base (fst (sign_split (skip_spaces s))) (snd (sign_split (skip_spaces s))).
Proof.
  unfold int_of_str, int_tail. fold (sign_split (skip_spaces s)).
  destruct (sign_split (skip_spaces s)) as [sign s2]. cbn [fst snd].
  destruct (if base =? 0 then detect_base s2 else (base, false)) as [b' flag].
  apply underscore_test.
Qed.

Lemma blank_facts c :
  is_space c = true ->
  Ascii.eqb c "_" = false /\ Ascii.eqb c "0" = false
  /\ Ascii.eqb c "+" = false /\ Ascii.eqb c "-" = false
  /\ digit_value c = 37
  /\ (forall b, is_prefix_letter b c = false).
Proof.
  all_chars c; intro H; vm_compute in H; try discriminate H;
    repeat split; try reflexivity;
    intro b; unfold is_prefix_letter; cbn [Ascii.eqb Bool.eqb orb];
    rewrite !andb_false_r; reflexivity.
Qed.

Lemma sign_split_eq c t :
  sign_split (String c t) =
  if Ascii.eqb c "+" then (1, t)
  else if Ascii.eqb c "-" then (-1, t)
  else (1, String c t).
Proof. all_chars c; reflexivity. Qed.

Lemma detect_base_eq s :
  detect_base s =
  match s with
  | String a t =>
      if Ascii.eqb a "0" then
        match t with
        | String c _ =>
            if Ascii.eqb c "x" || Ascii.eqb c "X" then (16, false)
            else if Ascii.eqb c "o" || Ascii.eqb c "O" then (8, false)
            else if Ascii.eqb c "b" || Ascii.eqb c "B" then (2, false)
            else (10, true)
        | EmptyString => (10, true)
        end
      else (10, false)
  | EmptyString => (10, false)
  end.
Proof.
  destruct s as [| a t]; [reflexivity |].
  all_chars a; try reflexivity; destruct t; reflexivity.
Qed.

Lemma skip_prefix_eq b s :
  skip_prefix b s =
  match s with
  | String a (String c rest) =>
      if Ascii.eqb a "0" && is_prefix_letter b c then
        match rest with
        | String u rest' => if Ascii.eqb u "_" then rest' else rest
        | EmptyString => rest
        end
      else s
  | _ => s
  end.
Proof.
  destruct s as [| a [| c rest]]; try reflexivity;
    all_chars a; try reflexivity.
  cbn [skip_prefix Ascii.eqb Bool.eqb andb].
  destruct (is_prefix_letter b c); [| reflexivity].
  destruct rest as [| u x]; [reflexivity |]. all_chars u; reflexivity.
Qed.

Lemma skip_spaces_blank r : all_blank r = true -> skip_spaces r = "".
Proof.
  induction r as [| c r IH]; simpl; intro H; [reflexivity |].
  apply andb_true_iff in H. destruct H as [Hc Hr]. rewrite Hc. apply IH, Hr.
Qed.

Lemma skip_spaces_app s r :
  all_blank r = true ->
  skip_spaces (s ++ r) =
  match skip_spaces s with
  | EmptyString => EmptyString
  | String c t => String c t ++ r
  end.
Proof.
  intro Hr. induction s as [| c s IH]; cbn [append skip_spaces].
  - apply skip_spaces_blank, Hr.
  - destruct (is_space c); [exact IH | reflexivity].
Qed.

Lemma skip_spaces_leading l s :
  all_blank l = true -> skip_spaces (l ++ s) = skip_spaces s.
Proof.
  induction l as [| c l IH]; simpl; intro H; [reflexivity |].
  apply andb_true_iff in H. destruct H as [Hc Hl]. rewrite Hc. apply IH, Hl.
Qed.

Lemma skip_spaces_first s c t : skip_spaces s = String c t -> is_space c = false.
Proof.
  induction s as [| a s IH]; simpl; [discriminate |].
  destruct (is_space a) eqn:E; [exact IH |]. intro H. injection H as <- _. exact E.
Qed.

Lemma detect_base_app s2 r :
  all_blank r = true -> detect_base (s2 ++ r) = detect_base s2.
Proof.
  intro Hr. rewrite !detect_base_eq.
  destruct s2 as [| a [| c t]]; cbn [append].
  - destruct r as [| c r]; [reflexivity |]. cbn [all_blank] in Hr.
    apply andb_true_iff in Hr. destruct Hr as [Hc _].
    destruct (blank_facts c Hc) as (_ & -> & _). reflexivity.
  - destruct (Ascii.eqb a "0"); [| reflexivity].
    destruct r as [| c r]; [reflexivity |]. cbn [all_blank] in Hr.
    apply andb_true_iff in Hr. destruct Hr as [Hc _]. clear -Hc.
    revert Hc. all_chars c; intro H; vm_compute in H; try discriminate H; reflexivity.
  - reflexivity.
Qed.

Lemma skip_prefix_app b s2 r :
  all_blank r = true -> skip_prefix b (s2 ++ r) = skip_prefix b s2 ++ r.
Proof.
  intro Hr. rewrite !skip_prefix_eq.
  destruct s2 as [| a [| c [| u t]]]; cbn [append].
  - destruct r as [| c [| u r]]; reflexivity || idtac.
    cbn [all_blank] in Hr. apply andb_true_iff in Hr. destruct Hr as [Hc _].
    destruct (blank_facts c Hc) as (_ & -> & _). reflexivity.
  - destruct r as [| c r]; [reflexivity |].
    cbn [all_blank] in Hr. apply andb_true_iff in Hr. destruct Hr as [Hc _].
    destruct (blank_facts c Hc) as (_ & _ & _ & _ & _ & Hp).
    rewrite Hp, andb_false_r. reflexivity.
  - destruct (Ascii.eqb a "0" && is_prefix_letter b c); [| reflexivity].
    destruct r as [| x r]; [reflexivity |].
    cbn [all_blank] in Hr. apply andb_true_iff in Hr. destruct Hr as [Hx _].
    destruct (blank_facts x Hx) as (-> & _). reflexivity.
  - destruct (Ascii.eqb a "0" && is_prefix_letter b c); [| reflexivity].
    destruct (Ascii.eqb u "_"); reflexivity.
Qed.

Lemma starts_with_underscore_app s r :
  all_blank r = true ->
  starts_with_underscore (s ++ r) = starts_with_underscore s.
Proof.
  intro Hr. destruct s as [| c s]; [| reflexivity]. cbn [append].
  destruct r as [| c r]; [reflexivity |].
  cbn [all_blank] in Hr. apply andb_true_iff in Hr. destruct Hr as [Hc _].
  destruct (blank_facts c Hc) as (H & _). exact H.
Qed.

Lemma scan_digits_app base r s : forall acc prev k,
  base <= 36 ->
  all_blank r = true ->
  scan_digits base (s ++ r) acc prev k =
  match scan_digits base s acc prev k with
  | Some (v, n, rest) => Some (v, n, rest ++ r)
  | None => None
  end.
Proof.
  intros acc prev k Hb Hr. revert acc prev k.
  induction s as [| c s IH]; intros acc prev k; cbn [append scan_digits].
  - destruct r as [| c r]; cbn [scan_digits]; [destruct prev; reflexivity |].
    cbn [all_blank] in Hr. apply andb_true_iff in Hr. destruct Hr as [Hc _].
    destruct (blank_facts c Hc) as (-> & _ & _ & _ & -> & _).
    assert ((37 <? base) = false) as -> by (apply Z.ltb_ge; lia).
    destruct prev; reflexivity.
  - destruct (Ascii.eqb c "_").
    + destruct prev; [reflexivity | apply IH].
    + destruct (digit_value c <? base); [apply IH |].
      destruct prev; reflexivity.
Qed.

Lemma int_tail_app base sign s2 r :
  base <= 36 ->
  all_blank r = true ->
  int_tail base sign (s2 ++ r) = int_tail base sign s2.
Proof.
  intros Hb Hr. unfold int_tail.
  assert (Hpair : (if base =? 0 then detect_base (s2 ++ r) else (base, false))
                  = (if base =? 0 then detect_base s2 else (base, false))).
  { destruct (base =? 0); [apply detect_base_app, Hr | reflexivity]. }
  rewrite Hpair.
  assert (Hb' : forall b' flag,
            (if base =? 0 then detect_base s2 else (base, false)) = (b', flag) ->
            b' <= 36).
  { intros b' flag H. destruct (base =? 0).
    - rewrite detect_base_eq in H.
      destruct s2 as [| a [| c t]]; repeat
        match type of H with
        | context [if ?x then _ else _] => destruct x
        end; injection H as <- _; lia.
    - injection H as <- _. exact Hb. }
  destruct (if base =? 0 then detect_base s2 else (base, false)) as [b' flag] eqn:E.
  specialize (Hb' b' flag eq_refl).
  rewrite skip_prefix_app, starts_with_underscore_app by exact Hr.
  destruct (starts_with_underscore (skip_prefix b' s2)); [reflexivity |].
  rewrite scan_digits_app by assumption.
  destruct (scan_digits b' (skip_prefix b' s2) 0 false 0) as [[[v [| n]] rest] |];
    try reflexivity.
  destruct (flag && negb (v =? 0)); [reflexivity |].
  rewrite skip_spaces_app by exact Hr.
  destruct (skip_spaces rest); reflexivity.
Qed.

(** X4. Blanks before and after a literal do not matter to [int]: for a
    base up to 36 the text with blanks around it is read as the text
    alone, to the same integer or the same exception. *)
Theorem int_ignores_blanks base l s r :
  base <= 36 ->
  all_blank l = true ->
  all_blank r = true ->
  int_of_str base (l ++ s ++ r) = int_of_str base s.
Proof.
  intros Hb Hl Hr. rewrite !int_of_str_tail.
  rewrite skip_spaces_leading by exact Hl.
  rewrite skip_spaces_app by exact Hr.
  destruct (skip_spaces s) as [| c t] eqn:E; [reflexivity |].
  pose proof (skip_spaces_first _ _ _ E) as Hc.
  cbn [append]. rewrite !sign_split_eq.
  destruct (Ascii.eqb c "+"); cbn [fst snd]; [apply int_tail_app; assumption |].
  destruct (Ascii.eqb c "-"); cbn [fst snd]; [apply int_tail_app; assumption |].
  apply (int_tail_app base 1 (String c t) r); assumption.
Qed.

Lemma underscore_match {A : Type} (s : string) (R K : A) :
  match s with
  | String "_" _ => R
  | _ => K
  end = R
  \/ match s with
     | String "_" _ => R
     | _ => K
     end = K.
Proof.
  destruct s as [| a s]; [right; reflexivity |].
  destruct a as [[] [] [] [] [] [] [] []]; first [left; reflexivity | right; reflexivity].
Qed.

Lemma int_of_str_only_ValueError base s e :
  int_of_str base s = Raise e -> e = ValueError.
Proof.
  unfold int_of_str.
  lazymatch goal with
  | |- match ?x with _ => _ end = _ -> _ => destruct x as [sign s2]
  end.
  lazymatch goal with
  | |- match ?x with _ => _ end = _ -> _ => destruct x as [base' flag]
  end.
  lazymatch goal with
  | |- ?m = _ -> _ =>
      lazymatch m with
      | match ?s3 with _ => _ end =>
          lazymatch goal with
          | |- context [scan_digits ?b ?t ?a ?u ?k] =>
              destruct (underscore_match s3 (@Raise Z ValueError)
                (match scan_digits b t a u k with
                 | None => Raise ValueError
                 | Some (_, O, _) => Raise ValueError
                 | Some (v, _, rest) =>
                     if flag && negb (v =? 0) then Raise ValueError
                     else
                       match skip_spaces rest with
                       | EmptyString => Ok (sign * v)
                       | _ => Raise ValueError
                       end
                 end)) as [-> | ->]
          end
      end
  end.
  - congruence.
  - destruct (scan_digits _ _ _ _ _) as [[[v [| k]] rest] |]; try congruence.
    destruct (flag && negb (v =? 0)); [congruence |].
    destruct (skip_spaces rest); congruence.
Qed.

(** X5. The size of a scalar register: a missing [size] element is an
    [AttributeError] and an empty one a [TypeError], neither caught by the
    [try]; a decimal literal is read as decimal even where it is a
    hexadecimal literal too; any other text is read in base 16. *)
Theorem scalar_size_errors register :
  read_size_scalar register =
  match find "size" register with
  | None => Raise AttributeError
  | Some c =>
      match text c with
      | None => Raise TypeError
      | Some t =>
          match int_of_str 10 t with
          | Ok n => Ok n
          | Raise _ => int_of_str 16 t
          end
      end
  end.
Proof.
  unfold read_size_scalar, find_text.
  destruct (find "size" register) as [c |]; [| reflexivity]. simpl.
  destruct (text c) as [t |]; [| reflexivity]. simpl.
  destruct (int_of_str 10 t) as [n | e] eqn:E; [reflexivity |].
  apply int_of_str_only_ValueError in E. subst e. reflexivity.
Qed.

(** ** Reads of the register emitter *)

(** X6. An array register needs its three [dim] elements although it uses
    none of their values: a [dim] that is no decimal literal, or a
    [dimIncrement] that is missing or no literal, ends the extraction with
    that very exception, and a missing [dimIndex] with [AttributeError]. *)
Theorem array_needs_dim_elements register dim_element rn pn pb :
  find_text "name" register = Ok rn ->
  find "dim" register = Some dim_element ->
  (forall e, py_int 10 (text dim_element) = Raise e ->
     extract_typedef register pn pb = Raise e)
  /\ (forall dim e,
        py_int 10 (text dim_element) = Ok dim ->
        (t <- find_text "dimIncrement" register ;; py_int 0 t) = Raise e ->
        extract_typedef register pn pb = Raise e)
  /\ (forall dim dim_increment,
        py_int 10 (text dim_element) = Ok dim ->
        (t <- find_text "dimIncrement" register ;; py_int 0 t) = Ok dim_increment ->
        find "dimIndex" register = None ->
        extract_typedef register pn pb = Raise AttributeError).
Proof.
  intros Hrn Hd. unfold extract_typedef, extract_typedef_array.
  rewrite Hrn, Hd. cbn [bind]. split; [| split].
  - intros e ->. reflexivity.
  - intros dim e -> He. cbn [bind]. rewrite He. reflexivity.
  - intros dim inc -> Hinc Hidx. cbn [bind]. rewrite Hinc. cbn [bind].
    unfold find_text at 1. rewrite Hidx. reflexivity.
Qed.

(** X7. When neither the base address nor the address offset can be read,
    the scalar branch reports the failure of the base address and the
    array branch that of the offset: the two branches read them in
    opposite order. *)
Theorem address_error_order register rn pn pb size e_base e_offset :
  find_text "name" register = Ok rn ->
  py_int 16 pb = Raise e_base ->
  read_address_offset register = Raise e_offset ->
  (find "dim" register = None ->
   read_size_scalar register = Ok size ->
   extract_typedef register pn pb = Raise e_base)
  /\ (dims_numeric register ->
      find "dimIndex" register <> None ->
      read_size_array register = Ok size ->
      extract_typedef register pn pb = Raise e_offset).
Proof.
  intros Hrn Hbase Hoff. split.
  - intros Hd Hsize. unfold extract_typedef, extract_typedef_scalar.
    rewrite Hrn, Hd. cbn [bind]. rewrite Hsize. cbn [bind]. rewrite Hbase.
    reflexivity.
  - intros (d & dim & inc & Hd & Hdim & Hinc) Hidx Hsize.
    unfold extract_typedef, extract_typedef_array.
    rewrite Hrn, Hd. cbn [bind]. rewrite Hdim. cbn [bind]. rewrite Hinc. cbn [bind].
    unfold find_text at 1.
    destruct (find "dimIndex" register); [| contradiction Hidx; reflexivity].
    cbn [bind]. rewrite Hsize. cbn [bind]. rewrite Hoff. reflexivity.
Qed.

Lemma length_append (a b : string) :
  String.length (a ++ b) = (String.length a + String.length b)%nat.
Proof. induction a as [| c a IH]; simpl; [reflexivity | rewrite IH; reflexivity]. Qed.

Lemma append_cancel_r (a b s : string) : a ++ s = b ++ s -> a = b.
Proof.
  revert b. induction a as [| c a IH]; intros b H.
  - destruct b as [| d b]; [reflexivity |].
    exfalso. apply (f_equal String.length) in H.
    simpl in H. rewrite length_append in H. lia.
  - destruct b as [| d b].
    + exfalso. apply (f_equal String.length) in H.
      simpl in H. rewrite length_append in H. lia.
    + simpl in H. injection H as -> H. f_equal. apply IH, H.
Qed.

(** X3. The storage type of every size is [uint], the size in decimal,
    [_t]: the four named cases write what the general case would write.
    Hence registers of different sizes never share a storage type. *)
Theorem register_type_of_size (a b : Z) :
  get_register_type a = "uint" ++ str_of_int a ++ "_t"
  /\ (get_register_type a = get_register_type b -> a = b).
Proof.
  assert (U : forall s, get_register_type s = "uint" ++ str_of_int s ++ "_t").
  { intro s. unfold get_register_type.
    destruct (s =? 8) eqn:E8; [apply Z.eqb_eq in E8; subst; reflexivity |].
    destruct (s =? 16) eqn:E16; [apply Z.eqb_eq in E16; subst; reflexivity |].
    destruct (s =? 32) eqn:E32; [apply Z.eqb_eq in E32; subst; reflexivity |].
    destruct (s =? 64) eqn:E64; [apply Z.eqb_eq in E64; subst; reflexivity |].
    reflexivity. }
  split; [apply U |].
  rewrite !U. intro H. apply (append_cancel_l "uint") in H.
  apply append_cancel_r in H.
  pose proof (int_of_str_of_int a) as Ha. rewrite H, int_of_str_of_int in Ha.
  injection Ha as ->. reflexivity.
Qed.

Lemma length_repeat_char c n : String.length (repeat_char c n) = n.
Proof. induction n as [| n IH]; simpl; [reflexivity | rewrite IH; reflexivity]. Qed.

Lemma mapM_ext_in {A B : Type} (f g : A -> result B) (l : list A) :
  (forall x, In x l -> f x = g x) -> mapM f l = mapM g l.
Proof.
  induction l as [| x l IH]; simpl; intro H; [reflexivity |].
  rewrite (H x (or_introl eq_refl)).
  rewrite IH by (intros y Hy; apply H; right; exact Hy). reflexivity.
Qed.

Lemma append_empty_r (s : string) : s ++ "" = s.
Proof. induction s as [| c s IH]; simpl; [reflexivity | rewrite IH; reflexivity]. Qed.

(** X9. The two copies of the layout loop differ in the name column only:
    the scalar branch pads a name with blanks to five characters and
    leaves longer names as they are, the array branch writes the name
    alone.  So where every field name has five characters or more the two
    branches write the same struct body. *)
Theorem struct_bodies_differ_in_padding register_type total_bits items :
  (forall s,
     name_column_scalar (Some s) = Ok (s ++ str_mul " " (5 - len s))
     /\ len (s ++ str_mul " " (5 - len s)) = Z.max 5 (len s)
     /\ name_column_array (Some s) = Ok s)
  /\ (Forall (fun x => exists s, fst x = Some s /\ 5 <= len s) items ->
      struct_body name_column_scalar register_type total_bits items
      = struct_body name_column_array register_type total_bits items).
Proof.
  split.
  - intro s. split; [reflexivity |]. split; [| reflexivity].
    unfold len, str_mul. rewrite length_append, length_repeat_char. lia.
  - intro Hlong. rewrite !struct_body_layout. apply mapM_ext_in.
    intros m Hm.
    assert (Hn : match m with
                 | Named n _ => In n (map fst items)
                 | Reserved _ => True
                 end).
    { unfold layout_members in Hm. apply in_app_or in Hm. destruct Hm as [Hm | Hm].
      - apply (layout_loop_names _ _ _ Hm).
      - destruct (snd (layout_loop items (-1)) <? total_bits - 1);
          [destruct Hm as [<- | []]; exact I | contradiction]. }
    destruct m as [n w | w]; [| reflexivity].
    apply in_map_iff in Hn. destruct Hn as (x & <- & Hx).
    rewrite Forall_forall in Hlong. destruct (Hlong x Hx) as (s & -> & Hs).
    assert (E : name_column_scalar (Some s) = Ok s).
    { unfold name_column_scalar, str_mul.
      replace (Z.to_nat (5 - len s)) with 0%nat by lia.
      cbn [repeat_char]. rewrite append_empty_r. reflexivity. }
    cbn [member_line fst]. rewrite E. reflexivity.
Qed.

(** ** What is never read *)

Lemma tag_strip e : tag (strip e) = tag e.
Proof. destruct e; reflexivity. Qed.

Lemma children_strip e : children (strip e) = map strip (children e).
Proof. destruct e; reflexivity. Qed.

Lemma text_strip e : is_read_tag (tag e) = true -> text (strip e) = text e.
Proof. destruct e; simpl; intros ->; reflexivity. Qed.

Lemma find_strip t e : find t (strip e) = option_map strip (find t e).
Proof.
  unfold find. rewrite children_strip.
  induction (children e) as [| c cs IH]; simpl; [reflexivity |].
  rewrite tag_strip. destruct (String.eqb (tag c) t); [reflexivity | exact IH].
Qed.

Lemma find_text_strip t e :
  is_read_tag t = true -> find_text t (strip e) = find_text t e.
Proof.
  intro Ht. unfold find_text. rewrite find_strip.
  destruct (find t e) as [c |] eqn:E; simpl; [| reflexivity].
  unfold find in E. apply find_some in E. destruct E as (_ & E).
  apply String.eqb_eq in E. rewrite text_strip; [reflexivity |].
  rewrite E. exact Ht.
Qed.

Lemma iter_strip e : iter (strip e) = map strip (iter e).
Proof.
  induction e as [t a x tl cs IH] using Element_nested_ind.
  rewrite !iter_children. simpl. f_equal.
  induction IH as [| c cs Hc _ IHcs]; simpl; [reflexivity |].
  rewrite map_app, Hc, IHcs. reflexivity.
Qed.

Lemma findall_strip t e : findall t (strip e) = map strip (findall t e).
Proof.
  unfold findall. rewrite children_strip.
  induction (children e) as [| c cs IH]; simpl; [reflexivity |].
  rewrite !filter_app, map_app, <- IH. f_equal.
  rewrite iter_strip.
  induction (iter c) as [| d l IHl]; simpl; [reflexivity |].
  rewrite tag_strip. destruct (String.eqb (tag d) t); simpl; rewrite IHl; reflexivity.
Qed.

Lemma field_entry_strip f : field_entry (strip f) = field_entry f.
Proof.
  unfold field_entry. rewrite !find_text_strip by reflexivity. reflexivity.
Qed.

Lemma build_field_dict_strip register :
  build_field_dict (findall "field" (strip register)) [] =
  build_field_dict (findall "field" register) [].
Proof.
  rewrite findall_strip. generalize (@nil item).
  induction (findall "field" register) as [| f fs IH]; intro d; simpl; [reflexivity |].
  rewrite field_entry_strip. destruct (field_entry f); simpl; [apply IH | reflexivity].
Qed.

(** X8. [extract_typedef] looks at tags and at the text of elements
    tagged [name], [size], [addressOffset], [bitOffset], [bitWidth], [dim]
    and [dimIncrement] only: with every attribute, every tail and every
    other text (of [description], [access], [dimIndex], ...) taken out of
    the register, the result is the same text or the same exception. *)
Theorem extract_typedef_reads_seven_tags register pn pb :
  extract_typedef (strip register) pn pb = extract_typedef register pn pb.
Proof.
  unfold extract_typedef.
  rewrite find_text_strip by reflexivity.
  destruct (find_text "name" register) as [rn | e]; [| reflexivity]. cbn [bind].
  rewrite find_strip.
  destruct (find "dim" register) as [d |] eqn:Hd; cbn [option_map].
  - unfold extract_typedef_array, read_size_array, read_address_offset.
    rewrite text_strip.
    2:{ unfold find in Hd. apply find_some in Hd. destruct Hd as (_ & Hd).
        apply String.eqb_eq in Hd. rewrite Hd. reflexivity. }
    destruct (py_int 10 (text d)); [| reflexivity]. cbn [bind].
    rewrite !(find_text_strip "dimIncrement"), !(find_text_strip "size"),
      !(find_text_strip "addressOffset") by reflexivity.
    rewrite build_field_dict_strip.
    destruct (t <- find_text "dimIncrement" register;; py_int 0 t);
      [| reflexivity]. cbn [bind].
    assert (Hidx : find_text "dimIndex" (strip register) = Raise AttributeError
                   /\ find_text "dimIndex" register = Raise AttributeError
                   \/ exists x y, find_text "dimIndex" (strip register) = Ok x
                                  /\ find_text "dimIndex" register = Ok y).
    { unfold find_text. rewrite find_strip.
      destruct (find "dimIndex" register); cbn [option_map];
        [right; eexists; eexists; split; reflexivity | left; split; reflexivity]. }
    destruct Hidx as [[-> ->] | (x & y & -> & ->)]; reflexivity.
  - unfold extract_typedef_scalar, read_size_scalar, read_address_offset.
    rewrite !(find_text_strip "size"), !(find_text_strip "addressOffset")
      by reflexivity.
    rewrite build_field_dict_strip. reflexivity.
Qed.

(** ** More on layouts *)



Lemma layout_loop_no_double items : forall last tail,
  no_double_reserved tail = true ->
  no_double_reserved (fst (layout_loop items last) ++ tail) = true.
Proof.
  induction items as [| [n [s e]] rest IH]; intros last tail Ht;
    cbn [layout_loop fst]; [exact Ht |].
  rewrite <- app_assoc. cbn [app].
  destruct (negb (last + 1 =? s)); cbn [app no_double_reserved]; apply IH, Ht.
Qed.

Lemma layout_loop_reserved_nonzero items : forall last w,
  In (Reserved w) (fst (layout_loop items last)) -> w <> 0.
Proof.
  induction items as [| [n [s e]] rest IH]; intros last w H; cbn [layout_loop fst] in H;
    [contradiction |].
  apply in_app_or in H. destruct H as [H | [H | H]].
  - destruct (last + 1 =? s) eqn:E; cbn in H; [contradiction |].
    destruct H as [H | []]. injection H as <-. apply Z.eqb_neq in E. lia.
  - discriminate H.
  - apply (IH _ _ H).
Qed.

Lemma layout_loop_length items : forall last,
  (List.length (fst (layout_loop items last)) <= 2 * List.length items)%nat.
Proof.
  induction items as [| [n [s e]] rest IH]; intro last; cbn [layout_loop fst];
    [apply Nat.le_refl |].
  rewrite length_app. specialize (IH e). cbn [List.length].
  destruct (negb (last + 1 =? s)); cbn [List.length]; lia.
Qed.

(** X11. In every layout no reserved member has width 0, no reserved
    member follows another one directly, and there are at most two
    members per item and one more. *)
Theorem reserved_members_shape (total_bits : Z) (items : list item) :
  (forall w, In (Reserved w) (layout_members total_bits items) -> w <> 0)
  /\ no_double_reserved (layout_members total_bits items) = true
  /\ (List.length (layout_members total_bits items)
        <= 2 * List.length items + 1)%nat.
Proof.
  unfold layout_members. split; [| split].
  - intros w H. apply in_app_or in H. destruct H as [H | H].
    + apply (layout_loop_reserved_nonzero _ _ _ H).
    + destruct (snd (layout_loop items (-1)) <? total_bits - 1) eqn:E;
        [| contradiction].
      destruct H as [H | []]. injection H as <-. apply Z.ltb_lt in E. lia.
  - apply layout_loop_no_double.
    destruct (snd (layout_loop items (-1)) <? total_bits - 1); reflexivity.
  - rewrite length_app. pose proof (layout_loop_length items (-1)).
    destruct (snd (layout_loop items (-1)) <? total_bits - 1); cbn [List.length]; lia.
Qed.

Lemma key_injective {A} (key : A -> Z) (l : list A) a b :
  NoDup (map key l) -> In a l -> In b l -> key a = key b -> a = b.
Proof.
  induction l as [| x l IH]; simpl; intros Hnd Ha Hb E; [contradiction |].
  inversion Hnd as [| ? ? Hx Hnd']; subst.
  destruct Ha as [-> | Ha], Hb as [-> | Hb]; try reflexivity.
  - exfalso. apply Hx. rewrite E. apply in_map, Hb.
  - exfalso. apply Hx. rewrite <- E. apply in_map, Ha.
  - apply IH; assumption.
Qed.

Lemma sorted_unique {A} (key : A -> Z) (l1 : list A) : forall l2,
  StronglySorted (key_le key) l1 ->
  StronglySorted (key_le key) l2 ->
  Permutation l1 l2 ->
  NoDup (map key l1) ->
  l1 = l2.
Proof.
  induction l1 as [| x l1 IH]; intros l2 H1 H2 Hp Hnd.
  - apply Permutation_nil in Hp. subst. reflexivity.
  - destruct l2 as [| y l2].
    { apply Permutation_sym, Permutation_nil in Hp. discriminate Hp. }
    inversion H1 as [| ? ? Hs1 Hx]; subst.
    inversion H2 as [| ? ? Hs2 Hy]; subst.
    rewrite Forall_forall in Hx, Hy.
    assert (Hxy : x = y).
    { assert (Hyin : In y (x :: l1))
        by (apply (Permutation_in _ (Permutation_sym Hp)); left; reflexivity).
      assert (Hxin : In x (y :: l2))
        by (apply (Permutation_in _ Hp); left; reflexivity).
      apply (key_injective key (x :: l1)); [exact Hnd | left; reflexivity | exact Hyin |].
      assert (key x <= key y).
      { destruct Hyin as [-> | Hyin]; [lia | apply (Hx _ Hyin)]. }
      assert (key y <= key x).
      { destruct Hxin as [-> | Hxin]; [lia | apply (Hy _ Hxin)]. }
      lia. }
    subst y. f_equal. apply IH; try assumption.
    + apply (Permutation_cons_inv Hp).
    + inversion Hnd; assumption.
Qed.

(** X12. For fields with pairwise distinct names and pairwise distinct
    bit offsets the layout does not depend on the order in which the
    document lists them. *)
Theorem field_order_irrelevant (size : Z) (fields fields' : list FieldDescriptor) :
  Permutation fields fields' ->
  NoDup (map name fields) ->
  NoDup (map bitOffset fields) ->
  field_layout size (map entry_of fields) = field_layout size (map entry_of fields').
Proof.
  intros Hp Hnames Hoffs. unfold field_layout.
  rewrite !dict_of_entries_distinct.
  - f_equal. apply (sorted_unique start_bit).
    + apply sorted_ordered.
    + apply sorted_ordered.
    + eapply Permutation_trans; [apply sorted_perm |].
      eapply Permutation_trans; [apply Permutation_map, Hp |].
      apply Permutation_sym, sorted_perm.
    + apply (Permutation_NoDup
               (Permutation_map start_bit (Permutation_sym (sorted_perm start_bit _)))).
      rewrite map_map. exact Hoffs.
  - rewrite map_map. apply (Permutation_NoDup (Permutation_map name Hp)), Hnames.
  - rewrite map_map. exact Hnames.
Qed.

(** ** Peripherals that cannot be listed *)

(** X15. A [derivedFrom] value, not empty and without an apostrophe, that
    no peripheral of the document carries as the inner text of a [name]
    child: the banner and the derivation note are printed, then the run
    ends in [AttributeError], no register printed. *)
Theorem unresolved_derivation quoted root p n b d out :
  find_text "name" p = Ok (Some n) ->
  find_text "baseAddress" p = Ok b ->
  get "derivedFrom" p = Some d ->
  d <> "" ->
  has_quote d = false ->
  (forall q, In q (findall "peripheral" root) ->
     forall c, In c (findall_children "name" q) -> itertext c <> d) ->
  list_peripheral quoted root p out
    = ((out ++ banner n ++ [derived_note n d])%list, Raise AttributeError).
Proof.
  intros Hn Hb Hg Hd Hq Hnone.
  rewrite (list_peripheral_looked_up _ _ _ _ _ _ _ Hn Hb Hg Hd).
  unfold find_peripheral_named. rewrite Hq.
  assert (Hfind : List.find (has_name d) (findall "peripheral" root) = None).
  { induction (findall "peripheral" root) as [| q l IH]; [reflexivity |].
    simpl. assert (E : has_name d q = false).
    { apply has_name_false. apply Hnone. left. reflexivity. }
    rewrite E. apply IH. intros q' Hq'. apply Hnone. right. exact Hq'. }
  rewrite Hfind. reflexivity.
Qed.

(** X14. A peripheral without a [name] or without a [baseAddress] element
    ends the run in [AttributeError] before anything is printed for it; a
    peripheral whose [name] element is empty gets the line [// None]
    printed and then ends the run in [TypeError]. *)
Theorem peripheral_without_name quoted root p out :
  (find "name" p = None ->
   list_peripheral quoted root p out = (out, Raise AttributeError))
  /\ (forall c, find "name" p = Some c -> find "baseAddress" p = None ->
      list_peripheral quoted root p out = (out, Raise AttributeError))
  /\ (forall c b, find "name" p = Some c -> text c = None ->
      find "baseAddress" p = Some b ->
      list_peripheral quoted root p out = ((out ++ ["// None"])%list, Raise TypeError)).
Proof.
  split; [| split].
  - intro H. unfold list_peripheral, io_bind, lift, find_text. rewrite H. reflexivity.
  - intros c Hc Hb. unfold list_peripheral, io_bind, lift, find_text.
    rewrite Hc, Hb. reflexivity.
  - intros c b Hc Ht Hb. unfold list_peripheral, io_bind, lift, find_text, print.
    rewrite Hc, Hb, Ht. reflexivity.
Qed.

(** X18. The first peripheral that raises ends the whole run: what was
    printed up to the exception stays printed, and nothing is printed for
    the peripherals after it. *)
Theorem run_stops_at_first_error quoted root before p after out out1 out2 e :
  findall "peripheral" root = (before ++ p :: after)%list ->
  for_each before (list_peripheral quoted root) out = (out1, Ok tt) ->
  list_peripheral quoted root p out1 = (out2, Raise e) ->
  list_registers quoted root out = (out2, Raise e).
Proof.
  intros Hall Hbefore Hp. unfold list_registers. rewrite Hall, for_each_app, Hbefore.
  simpl. unfold io_bind. rewrite Hp. reflexivity.
Qed.

(** X16. A peripheral with a name and without a [derivedFrom] attribute,
    or with an empty one, is listed from its own registers, whatever else
    the document holds: its banner and no derivation note; then, if every
    register below it can be emitted, each text followed by an empty line
    and a closing empty line; and if one cannot, the texts of the registers
    before it, each followed by an empty line, and then that register's
    exception. *)
Theorem underived_peripheral_listing quoted root p n b out :
  find_text "name" p = Ok (Some n) ->
  find_text "baseAddress" p = Ok b ->
  get "derivedFrom" p = None \/ get "derivedFrom" p = Some "" ->
  (forall texts,
     mapM (fun r => extract_typedef r n b) (findall "register" p) = Ok texts ->
     list_peripheral quoted root p out
       = ((out ++ banner n ++ printed_blocks texts ++ [""])%list, Ok tt))
  /\ (forall before r after texts e,
        findall "register" p = (before ++ r :: after)%list ->
        mapM (fun r => extract_typedef r n b) before = Ok texts ->
        extract_typedef r n b = Raise e ->
        list_peripheral quoted root p out
          = ((out ++ banner n ++ printed_blocks texts)%list, Raise e)).
Proof.
  intros Hn Hb Hg. split.
  - intros texts Ht. rewrite (list_peripheral_own _ _ _ _ _ _ Hn Hb Hg).
    unfold io_bind. rewrite (print_registers_emitted _ _ _ _ _ Ht).
    unfold print. rewrite <- !app_assoc. reflexivity.
  - intros before r after texts e Hall Ht He.
    rewrite (list_peripheral_own _ _ _ _ _ _ Hn Hb Hg).
    unfold io_bind. rewrite Hall, (print_registers_stopped _ _ _ _ _ _ _ _ Ht He).
    rewrite <- !app_assoc. reflexivity.
Qed.

(** X13. If every register of the list can be emitted, each one's text is
    printed followed by an empty line, in order, and the loop ends
    normally.  If one cannot, the registers before it are printed in that
    way, then the loop ends with its exception and nothing of it or of the
    registers after it is printed. *)
Theorem registers_printed_in_blocks pn pb registers out :
  (forall texts,
     mapM (fun r => extract_typedef r pn pb) registers = Ok texts ->
     for_each registers (print_register pn pb) out
       = ((out ++ flat_map (fun t => [t; ""]) texts)%list, Ok tt))
  /\ (forall before r after texts e,
        registers = (before ++ r :: after)%list ->
        mapM (fun r => extract_typedef r pn pb) before = Ok texts ->
        extract_typedef r pn pb = Raise e ->
        for_each registers (print_register pn pb) out
          = ((out ++ flat_map (fun t => [t; ""]) texts)%list, Raise e)).
Proof.
  split.
  - intros texts H. apply print_registers_emitted, H.
  - intros before r after texts e -> Hb Hr.
    apply print_registers_stopped; assumption.
Qed.

(** X17. For a name without an apostrophe the lookup of line 19 raises
    nothing; it returns a peripheral exactly when that is the first
    peripheral in document order with a [name] child whose inner text is
    the name, and returns [None] exactly when no peripheral of the document
    has such a child. *)
Theorem lookup_finds_first_match quoted root d :
  has_quote d = false ->
  (forall p,
     find_peripheral_named quoted d root = Ok (Some p) <->
     exists before after,
       findall "peripheral" root = (before ++ p :: after)%list
       /\ (exists c, In c (findall_children "name" p) /\ itertext c = d)
       /\ (forall q, In q before ->
             forall c, In c (findall_children "name" q) -> itertext c <> d))
  /\ (find_peripheral_named quoted d root = Ok None <->
      forall q, In q (findall "peripheral" root) ->
        forall c, In c (findall_children "name" q) -> itertext c <> d)
  /\ (forall e, find_peripheral_named quoted d root <> Raise e).
Proof.
  intro Hq. unfold find_peripheral_named. rewrite Hq.
  split; [| split; [| discriminate]].
  - intro p. split.
    + intro H. injection H as H.
      induction (findall "peripheral" root) as [| q l IH]; simpl in H; [discriminate |].
      destruct (has_name d q) eqn:E.
      * injection H as ->. exists [], l. split; [reflexivity |]. split.
        -- apply has_name_true, E.
        -- intros q [].
      * destruct (IH H) as (before & after & -> & Hp & Hb).
        exists (q :: before), after. split; [reflexivity |]. split; [exact Hp |].
        intros q' [<- | Hq']; [apply has_name_false, E | apply Hb, Hq'].
    + intros (before & after & -> & Hp & Hb). f_equal.
      apply find_first_match.
      * apply Forall_forall. intros q Hin. apply has_name_false, Hb, Hin.
      * apply has_name_true, Hp.
  - split.
    + intros H q Hin. injection H as H.
      apply has_name_false. apply (find_none _ _ H _ Hin).
    + intro H. f_equal.
      induction (findall "peripheral" root) as [| q l IH]; [reflexivity |].
      simpl. assert (E : has_name d q = false).
      { apply has_name_false. apply H. left. reflexivity. }
      rewrite E. apply IH. intros q' Hq'. apply H. right. exact Hq'.
Qed.

(** ** The further properties on sample inputs *)

Lemma register_type_of_size_witness :
  get_register_type 24 = "uint24_t" /\ 24 = 24.
Proof.
  destruct (register_type_of_size 24 24) as [H1 H2].
  split; [exact H1 | exact (H2 eq_refl)].
Defined.

Lemma int_ignores_blanks_witness :
  int_of_str 10 (" " ++ "32" ++ newline) = int_of_str 10 "32".
Proof.
  apply (int_ignores_blanks 10 " " "32" newline); [lia | reflexivity | reflexivity].
Defined.

Lemma array_needs_dim_elements_witness :
  extract_typedef hex_dim_register "P" (Some "0x0") = Raise ValueError.
Proof.
  destruct (array_needs_dim_elements hex_dim_register (leaf "dim" "0x4")
              (Some "BUF") "P" (Some "0x0") eq_refl eq_refl) as (H & _).
  apply H. reflexivity.
Defined.

Lemma address_error_order_witness :
  extract_typedef no_offset_scalar "P" (Some "zz") = Raise ValueError
  /\ extract_typedef no_offset_array "P" (Some "zz") = Raise AttributeError.
Proof.
  split.
  - destruct (address_error_order no_offset_scalar (Some "R") "P" (Some "zz") 8
                ValueError AttributeError eq_refl eq_refl eq_refl) as (H & _).
    apply H; reflexivity.
  - destruct (address_error_order no_offset_array (Some "R") "P" (Some "zz") 8
                ValueError AttributeError eq_refl eq_refl eq_refl) as (_ & H).
    apply H.
    + exists (leaf "dim" "4"), 4, 1. repeat split; reflexivity.
    + discriminate.
    + reflexivity.
Defined.

Lemma struct_bodies_differ_in_padding_witness :
  struct_body name_column_scalar "uint8_t" 8 [(Some "ENABLE", (0, 0))]
  = struct_body name_column_array "uint8_t" 8 [(Some "ENABLE", (0, 0))].
Proof.
  destruct (struct_bodies_differ_in_padding "uint8_t" 8 [(Some "ENABLE", (0, 0))])
    as (_ & H).
  apply H. constructor; [| constructor].
  exists "ENABLE". split; [reflexivity |]. unfold len. simpl. lia.
Defined.


Lemma reserved_members_shape_witness :
  layout_members 16 [(Some "A", (4, 7))]
    = [Reserved 4; Named (Some "A") 4; Reserved 8]
  /\ 4 <> 0
  /\ no_double_reserved (layout_members 16 [(Some "A", (4, 7))]) = true.
Proof.
  destruct (reserved_members_shape 16 [(Some "A", (4, 7))]) as (H1 & H2 & _).
  split; [reflexivity |]. split; [apply H1; left; reflexivity | exact H2].
Defined.

Lemma field_order_irrelevant_witness :
  field_layout 8 (map entry_of [mkField (Some "EN") 0 1; mkField (Some "MODE") 4 2])
  = field_layout 8 (map entry_of [mkField (Some "MODE") 4 2; mkField (Some "EN") 0 1]).
Proof.
  apply field_order_irrelevant.
  - apply perm_swap.
  - simpl. constructor.
    + intros [H | []]. discriminate H.
    + constructor; [intros [] | constructor].
  - simpl. constructor.
    + intros [H | []]. discriminate H.
    + constructor; [intros [] | constructor].
Defined.

Lemma registers_printed_in_blocks_witness :
  exists texts,
    List.length texts = 2%nat
    /\ for_each [uart_status; plain_register]
                (print_register "P" (Some "0x40000000")) ["// P"]
       = ((["// P"] ++ flat_map (fun t => [t; ""]) texts)%list, Ok tt).
Proof.
  destruct (registers_printed_in_blocks "P" (Some "0x40000000")
              [uart_status; plain_register] ["// P"]) as (H & _).
  eexists. split.
  2:{ apply H. reflexivity. }
  reflexivity.
Defined.

Lemma peripheral_without_name_witness :
  list_peripheral unreached_lookup uart_document bare_peripheral ["x"]
    = (["x"], Raise AttributeError)
  /\ list_peripheral unreached_lookup uart_document unnamed_peripheral ["x"]
     = (["x"; "// None"], Raise TypeError).
Proof.
  split.
  - destruct (peripheral_without_name unreached_lookup uart_document
                bare_peripheral ["x"]) as (H & _).
    apply H. reflexivity.
  - destruct (peripheral_without_name unreached_lookup uart_document
                unnamed_peripheral ["x"]) as (_ & _ & H).
    apply (H (mkElement "name" [] None None []) (leaf "baseAddress" "0x40004000"));
      reflexivity.
Defined.

Lemma unresolved_derivation_witness :
  list_peripheral unreached_lookup uart_document orphan_peripheral []
  = (["// UART2"; "// ====="; "// UART2 is derived from UART9"],
     Raise AttributeError).
Proof.
  apply (unresolved_derivation unreached_lookup uart_document orphan_peripheral
           "UART2" (Some "0x40003000") "UART9" []);
    try reflexivity.
  - discriminate.
  - intros q Hq c Hc.
    destruct Hq as [<- | [<- | []]]; destruct Hc as [<- | []]; discriminate.
Defined.

Lemma underived_peripheral_listing_witness :
  list_peripheral unreached_lookup uart_document watchdog []
  = (["// WDT"; "// ===";
      register_block false "WDT" (Some "CTRL") "uint16_t"
        ["    uint16_t : 16;"] "0x40007010";
      ""; ""], Ok tt).
Proof.
  destruct (underived_peripheral_listing unreached_lookup uart_document watchdog
              "WDT" (Some "0x40007000") []
              eq_refl eq_refl (or_intror eq_refl)) as (H & _).
  apply (H [register_block false "WDT" (Some "CTRL") "uint16_t"
              ["    uint16_t : 16;"] "0x40007010"]).
  vm_compute. reflexivity.
Defined.

Lemma lookup_finds_first_match_witness :
  find_peripheral_named unreached_lookup "UART0" uart_document = Ok (Some uart0)
  /\ find_peripheral_named unreached_lookup "UART9" uart_document = Ok None.
Proof.
  split.
  - destruct (lookup_finds_first_match unreached_lookup uart_document "UART0"
                eq_refl) as (H & _).
    apply (H uart0). exists [], [uart1].
    split; [reflexivity |]. split.
    + exists (leaf "name" "UART0"). split; [left; reflexivity | reflexivity].
    + intros q [].
  - destruct (lookup_finds_first_match unreached_lookup uart_document "UART9"
                eq_refl) as (_ & H & _).
    apply H. intros q Hq c Hc.
    destruct Hq as [<- | [<- | []]]; destruct Hc as [<- | []]; discriminate.
Defined.

Lemma run_stops_at_first_error_witness :
  exists printed,
    list_registers unreached_lookup broken_document [] = (printed, Raise AttributeError)
    /\ List.length printed = 8%nat.
Proof.
  eexists. split.
  - eapply (run_stops_at_first_error unreached_lookup broken_document
              [uart0] orphan_peripheral [uart1]).
    + reflexivity.
    + reflexivity.
    + reflexivity.
  - reflexivity.
Defined.
